(** * OTP distribution coordinator of [main.py]

    A shallow embedding of the concurrency core of the automation service:
    the debug-port allocator ([get_next_debug_port]), the status update on
    the [browser_threads] registry, the legacy single-slot mailbox
    ([otp_storage]) with its status endpoint, and the fair OTP queue
    ([otp_waiting_threads] + [otp_queue]) with its two waiting routines
    [wait_for_otp_sync] and [wait_for_otp_from_api].

    Conventions.
    - Python [int] is [Z]; [str] is [string]; [None]-or-value is [option].
    - [time.time()] is a rational number of seconds ([Q]); floating-point
      rounding is not modelled.
    - A Python exception is a value [Raised e] of the [result] type. *)

From Stdlib Require Import QArith Qround Qminmax Lqa.
From stdpp Require Import gmap strings list fin_maps pretty.

Local Open Scope Z_scope.

(** ** Exceptions as values *)

Inductive exn := KeyError | TypeError.

Inductive result (A : Type) : Type :=
| Ok (a : A)
| Raised (e : exn).
Arguments Ok {A} a.
Arguments Raised {A} e.

#[global] Instance result_ret : MRet result := fun A a => Ok a.
#[global] Instance result_bind : MBind result := fun A B f m =>
  match m with
  | Ok a => f a
  | Raised e => Raised e
  end.

(** [d[k]] on a Python dict: [KeyError] when the key is absent. *)
Definition dict_getitem `{Countable K} {V} (d : gmap K V) (k : K) : result V :=
  match d !! k with
  | Some v => Ok v
  | None => Raised KeyError
  end.

(** [int(x)] on a float: truncation toward zero. *)
Definition py_int (x : Q) : Z := Z.quot (Qnum x) (Z.pos (Qden x)).

(** [l.remove(x)] where the caller has checked [x in l]: the first
    occurrence goes, the rest keeps its order. *)
Fixpoint list_remove_first (x : Z) (l : list Z) : list Z :=
  match l with
  | [] => []
  | y :: l' => if decide (x = y) then l' else y :: list_remove_first x l'
  end.

(** ** Resource slot allocator: [get_next_debug_port] (main.py 208-233) *)

Module Allocator.

(** [debug_port_counter = 9222] (main.py 50). *)
Definition initial_counter : Z := 9222.

(** One call, in state-passing style: the argument is the global counter
    before the call; the result is (assigned port, counter after). *)
Definition get_next_debug_port (debug_port_counter : Z) : Z * Z :=
  let c := debug_port_counter + 1 in
  let c := if c <? 9223 then 9223 else c in
  let c := if 9999 <? c then 9223 else c in
  (c, c).

(** The ports handed out by [n] successive calls, oldest first, and the
    counter they leave behind. *)
Fixpoint calls (n : nat) (counter : Z) : list Z * Z :=
  match n with
  | O => ([], counter)
  | S n' =>
      let '(port, counter') := get_next_debug_port counter in
      let '(ports, final) := calls n' counter' in
      (port :: ports, final)
  end.

Definition ports (n : nat) : list Z := (calls n initial_counter).1.

End Allocator.

(** ** Worker registry: [browser_threads] (main.py 45-47, 326-347) *)

Module Registry.

(** Values stored in a per-thread info dict. *)
Inductive pyval :=
| PyStr (s : string)
| PyNum (x : Q).

Abbreviation thread_info := (gmap string pyval).
Abbreviation registry := (gmap Z thread_info).

(** The status update every caller writes inline (main.py 392-394,
    503-506, 625-627, ...):
<<
    with browser_threads_lock:
        if thread_id in browser_threads:
            browser_threads[thread_id]["status"] = status
>> *)
Definition set_status (thread_id : Z) (status : string)
    (browser_threads : registry) : result registry :=
  if bool_decide (thread_id ∈ dom browser_threads) then
    info ← dict_getitem browser_threads thread_id;
    Ok (<[thread_id := <["status" := PyStr status]> info]> browser_threads)
  else Ok browser_threads.

(** [get_next_thread_id] (main.py 326-347): bump [thread_counter], create
    the record in state "initializing". Returns (id, counter, registry). *)
Definition get_next_thread_id (now : Q) (thread_counter : Z)
    (browser_threads : registry) : Z * Z * registry :=
  let thread_counter := thread_counter + 1 in
  let thread_id := thread_counter in
  (thread_id, thread_counter,
   <[thread_id := <["status" := PyStr "initializing"]>
                   (<["created_at" := PyNum now]> ∅)]> browser_threads).

(** [n] successive calls of [get_next_thread_id]: the ids handed out, oldest
    first, the counter and the registry they leave behind. *)
Fixpoint issue (n : nat) (now : Q) (thread_counter : Z)
    (browser_threads : registry) : list Z * Z * registry :=
  match n with
  | O => ([], thread_counter, browser_threads)
  | S n' =>
      let '(thread_id, counter', bt') :=
        get_next_thread_id now thread_counter browser_threads in
      let '(ids, final, bt'') := issue n' now counter' bt' in
      (thread_id :: ids, final, bt'')
  end.

End Registry.

(** ** Legacy single slot: [otp_storage] (main.py 54, 463-477, 4833-4835,
       4871-4880) *)

Module Legacy.

Record otp_storage := {
  otp : option string;
  timestamp : option Q
}.

(** [otp_storage = {"otp": None, "timestamp": None}]. *)
Definition initial : otp_storage := {| otp := None; timestamp := None |}.

(** The two assignments of [send_otp] (main.py 4834-4835). *)
Definition put (otp_code : string) (now : Q) (_ : otp_storage) : otp_storage :=
  {| otp := Some otp_code; timestamp := Some now |}.

(** One pass through the body of the legacy polling loop (main.py
    465-474), reading the clock as [now]. The result pairs the storage
    after the pass with the value the pass returns, if it returns one.
    Subtracting a [None] timestamp from a float is a [TypeError]. *)
Definition take (now : Q) (s : otp_storage) : result (otp_storage * option string) :=
  match otp s with
  | Some otp_code =>
      match timestamp s with
      | Some ts =>
          if Qlt_le_dec (now - ts) 300
          then Ok ({| otp := None; timestamp := timestamp s |}, Some otp_code)
          else Ok ({| otp := None; timestamp := timestamp s |}, None)
      | None => Raised TypeError
      end
  | None => Ok (s, None)
  end.

(** Body of [GET /otp/status]. *)
Inductive status_response :=
| Waiting (age_seconds : Z) (expires_in : Z)
| NotWaiting.

Definition otp_status (now : Q) (s : otp_storage) : result (otp_storage * status_response) :=
  match otp s with
  | Some _ =>
      match timestamp s with
      | Some ts =>
          let age := (now - ts)%Q in
          Ok (s, Waiting (py_int age)
                   (if Qlt_le_dec age 300 then py_int (300 - age) else 0))
      | None => Raised TypeError
      end
  | None => Ok (s, NotWaiting)
  end.

End Legacy.

(** ** Fair OTP queue (main.py 33-39, 361-458, 483-542, 4821-4824) *)

Module FairQueue.

(** The process-wide objects a waiting routine touches. *)
Record shared := {
  otp_waiting_threads : list Z;
  otp_queue : list string;
  browser_threads : Registry.registry
}.

(** The two call shapes against the same shared state. *)
Inductive variant :=
| Blocking       (* wait_for_otp_sync *)
| NonBlocking.   (* wait_for_otp_from_api with a thread_id *)

(** Program points of a waiting routine. Between two of them the routine
    runs one critical section or one call on a thread-safe object. *)
Inductive pc :=
| AtRegister                    (* entry, before the first critical section *)
| AtStatus                      (* before the status update *)
| AtStart                       (* before start_time = time.time() *)
| AtWhile                       (* at the while condition *)
| AtCheck                       (* before reading has_otp / is_my_turn *)
| AtGet (endtime : Q)           (* inside otp_queue.get(timeout=...) *)
| AtRemove (otp_code : string)  (* code in hand, before leaving the list *)
| AtSleep (wake : Q)            (* inside sleep(0.1) *)
| AtRecompute                   (* before remaining_timeout = timeout - ... *)
| AtTimeout                     (* after the loop, before the clean-up *)
| Returned (r : option string)  (* the routine has returned r *)
| Failed (e : exn).             (* an exception left the routine *)

(** One activation of a waiting routine: arguments and locals. *)
Record call := {
  shape : variant;
  thread_id : Z;
  timeout : Q;
  start_time : Q;
  remaining_timeout : Q;
  at_pc : pc
}.

Definition goto (p : pc) (c : call) : call :=
  {| shape := shape c; thread_id := thread_id c; timeout := timeout c;
     start_time := start_time c; remaining_timeout := remaining_timeout c;
     at_pc := p |}.

Definition with_waiting (l : list Z) (s : shared) : shared :=
  {| otp_waiting_threads := l; otp_queue := otp_queue s;
     browser_threads := browser_threads s |}.

Definition with_queue (q : list string) (s : shared) : shared :=
  {| otp_waiting_threads := otp_waiting_threads s; otp_queue := q;
     browser_threads := browser_threads s |}.

Definition with_threads (bt : Registry.registry) (s : shared) : shared :=
  {| otp_waiting_threads := otp_waiting_threads s; otp_queue := otp_queue s;
     browser_threads := bt |}.

(** What a step lets an observer see. Nothing in the program reads it. *)
Inductive obs :=
| ObsRegistered (thread_id : Z)
| ObsDelivered (otp_code : string)
| ObsPopped (thread_id : Z) (otp_code : string).

(** Shared fragments of the two routines. *)

(** Registration (main.py 384-389, 496-501). *)
Definition register (s : shared) (c : call) : shared * call * list obs :=
  if bool_decide (thread_id c ∈ otp_waiting_threads s)
  then (s, goto AtStatus c, [])
  else (with_waiting (otp_waiting_threads s ++ [thread_id c]) s,
        goto AtStatus c, [ObsRegistered (thread_id c)]).

(** Status update (main.py 392-394, 504-506). *)
Definition mark_waiting (s : shared) (c : call) : shared * call * list obs :=
  match Registry.set_status (thread_id c) "waiting_for_otp" (browser_threads s) with
  | Ok bt => (with_threads bt s, goto AtStart c, [])
  | Raised e => (s, goto (Failed e) c, [])
  end.

(** [has_otp and is_my_turn] (main.py 410-414, 513-517). *)
Definition my_turn (s : shared) (c : call) : bool :=
  bool_decide (0 < length (otp_queue s))%nat
  && (bool_decide (0 < length (otp_waiting_threads s))%nat
      && bool_decide (head (otp_waiting_threads s) = Some (thread_id c))).

(** Leaving the list (main.py 421-423, 453-455, 523-525, 537-539). *)
Definition leave (s : shared) (c : call) : shared :=
  if bool_decide (thread_id c ∈ otp_waiting_threads s)
  then with_waiting (list_remove_first (thread_id c) (otp_waiting_threads s)) s
  else s.

(** One step of [wait_for_otp_sync] (main.py 483-542) with the clock
    reading [now]. A routine blocked in [get] or [sleep] does not move. *)
Definition wait_for_otp_sync (now : Q) (s : shared) (c : call)
    : shared * call * list obs :=
  match at_pc c with
  | AtRegister => register s c
  | AtStatus => mark_waiting s c
  | AtStart =>
      (s, {| shape := shape c; thread_id := thread_id c; timeout := timeout c;
             start_time := now; remaining_timeout := remaining_timeout c;
             at_pc := AtWhile |}, [])
  | AtWhile =>
      if Qlt_le_dec (now - start_time c) (timeout c)
      then (s, goto AtCheck c, [])
      else (s, goto AtTimeout c, [])
  | AtCheck =>
      if my_turn s c
      then (s, goto (AtGet (now + 0.3)) c, [])
      else (s, goto (AtSleep (now + 0.1)) c, [])
  | AtGet endtime =>
      match otp_queue s with
      | otp_code :: rest =>
          (with_queue rest s, goto (AtRemove otp_code) c,
           [ObsPopped (thread_id c) otp_code])
      | [] =>
          if Qlt_le_dec 0 (endtime - now)
          then (s, c, [])
          else (s, goto (AtSleep (now + 0.1)) c, [])   (* except queue.Empty: pass *)
      end
  | AtRemove otp_code => (leave s c, goto (Returned (Some otp_code)) c, [])
  | AtSleep wake =>
      if Qlt_le_dec now wake
      then (s, c, [])
      else (s, goto AtWhile c, [])
  | AtRecompute => (s, goto AtWhile c, [])              (* not a point of this routine *)
  | AtTimeout => (leave s c, goto (Returned None) c, [])
  | Returned _ => (s, c, [])
  | Failed _ => (s, c, [])
  end.

(** One step of the [thread_id is not None] branch of
    [wait_for_otp_from_api] (main.py 381-458). After a sleep or an empty
    [get] the routine recomputes [remaining_timeout] and, when it is still
    positive, [continue]s: the [while remaining_timeout > 0] test that
    follows reads only that local and is folded into the same step. *)
Definition wait_for_otp_from_api (now : Q) (s : shared) (c : call)
    : shared * call * list obs :=
  match at_pc c with
  | AtRegister => register s c
  | AtStatus => mark_waiting s c
  | AtStart =>
      (s, {| shape := shape c; thread_id := thread_id c; timeout := timeout c;
             start_time := now; remaining_timeout := timeout c;
             at_pc := AtWhile |}, [])
  | AtWhile =>
      if Qlt_le_dec 0 (remaining_timeout c)
      then (s, goto AtCheck c, [])
      else (s, goto AtTimeout c, [])
  | AtCheck =>
      if my_turn s c
      then (s, goto (AtGet (now + Qmin 0.3 (remaining_timeout c))) c, [])
      else (s, goto (AtSleep (now + 0.1)) c, [])
  | AtGet endtime =>
      match otp_queue s with
      | otp_code :: rest =>
          (with_queue rest s, goto (AtRemove otp_code) c,
           [ObsPopped (thread_id c) otp_code])
      | [] =>
          if Qlt_le_dec 0 (endtime - now)
          then (s, c, [])
          else (s, goto AtRecompute c, [])             (* except queue.Empty *)
      end
  | AtRemove otp_code => (leave s c, goto (Returned (Some otp_code)) c, [])
  | AtSleep wake =>
      if Qlt_le_dec now wake
      then (s, c, [])
      else (s, goto AtRecompute c, [])
  | AtRecompute =>
      let remaining := (timeout c - (now - start_time c))%Q in
      let c' := {| shape := shape c; thread_id := thread_id c; timeout := timeout c;
                   start_time := start_time c; remaining_timeout := remaining;
                   at_pc := AtCheck |} in
      if Qlt_le_dec 0 remaining
      then (s, c', [])
      else (s, goto AtTimeout c', [])
  | AtTimeout => (leave s c, goto (Returned None) c, [])
  | Returned _ => (s, c, [])
  | Failed _ => (s, c, [])
  end.

Definition step_call (now : Q) (s : shared) (c : call) : shared * call * list obs :=
  match shape c with
  | Blocking => wait_for_otp_sync now s c
  | NonBlocking => wait_for_otp_from_api now s c
  end.

(** The producer side of [send_otp] (main.py 4821-4824). *)
Definition deliver (otp_code : string) (s : shared) : shared :=
  with_queue (otp_queue s ++ [otp_code]) s.

(** *** The interleaved system *)

Record world := {
  globals : shared;
  clock : Q;
  pool : list call;
  log : list obs
}.

(** What the scheduler, the inbound channel and time can do. *)
Inductive event :=
| Step (i : nat)               (* the i-th routine runs to its next point *)
| Deliver (otp_code : string)  (* POST /otp *)
| Tick (d : Q).                (* d seconds pass *)

Definition step_world (e : event) (w : world) : world :=
  match e with
  | Step i =>
      match pool w !! i with
      | Some c =>
          let '(s', c', o) := step_call (clock w) (globals w) c in
          {| globals := s'; clock := clock w;
             pool := <[i := c']> (pool w); log := log w ++ o |}
      | None => w
      end
  | Deliver otp_code =>
      {| globals := deliver otp_code (globals w); clock := clock w;
         pool := pool w; log := log w ++ [ObsDelivered otp_code] |}
  | Tick d =>
      if Qlt_le_dec 0 d
      then {| globals := globals w; clock := (clock w + d)%Q;
              pool := pool w; log := log w |}
      else w
  end.

Definition run (schedule : list event) (w : world) : world :=
  foldl (fun w e => step_world e w) w schedule.

(** A routine about to be entered with the given arguments. *)
Definition enter (v : variant) (tid : Z) (timeout_s : Q) : call :=
  {| shape := v; thread_id := tid; timeout := timeout_s;
     start_time := 0; remaining_timeout := 0; at_pc := AtRegister |}.

Definition fresh (c : call) : call := enter (shape c) (thread_id c) (timeout c).

(** Process start: empty list, empty queue, the given registry, and the
    routines that will be entered during the run. *)
Definition boot (bt : Registry.registry) (calls : list call) : world :=
  {| globals := {| otp_waiting_threads := []; otp_queue := [];
                   browser_threads := bt |};
     clock := 0; pool := fresh <$> calls; log := [] |}.

(** Reading the log. *)
Definition registered (l : list obs) : list Z :=
  omap (fun o => match o with ObsRegistered t => Some t | _ => None end) l.

Definition delivered (l : list obs) : list string :=
  omap (fun o => match o with ObsDelivered x => Some x | _ => None end) l.

Definition popped (l : list obs) : list (Z * string) :=
  omap (fun o => match o with ObsPopped t x => Some (t, x) | _ => None end) l.

(** The code a routine has taken out of the queue, if any. *)
Definition held (c : call) : option string :=
  match at_pc c with
  | AtRemove x => Some x
  | Returned (Some x) => Some x
  | _ => None
  end.

Definition result_of (c : call) : option (option string) :=
  match at_pc c with
  | Returned r => Some r
  | _ => None
  end.

(** The same routines, all entered through one variant. *)
Definition reshape (v : variant) (c : call) : call :=
  {| shape := v; thread_id := thread_id c; timeout := timeout c;
     start_time := start_time c; remaining_timeout := remaining_timeout c;
     at_pc := at_pc c |}.

End FairQueue.

(** ** Vocabulary for the queue's invariants *)

Module QueueInv.
Import FairQueue.

(** Program points at which the routine's id is expected in the list. *)
Definition polling (p : pc) : Prop :=
  match p with
  | AtStatus | AtStart | AtWhile | AtCheck | AtSleep _ | AtRecompute | AtTimeout => True
  | _ => False
  end.

Definition in_get (p : pc) : Prop :=
  match p with AtGet _ => True | _ => False end.

(** What a step of one routine can do to the list, the queue and its own
    program point. [s], [c] are before the step, [s'], [c'] after. *)
Inductive transition (s : shared) (c : call) (s' : shared) (c' : call)
    : list obs → Prop :=
| T_register_new :
    at_pc c = AtRegister → at_pc c' = AtStatus →
    thread_id c ∉ otp_waiting_threads s →
    otp_waiting_threads s' = otp_waiting_threads s ++ [thread_id c] →
    otp_queue s' = otp_queue s →
    transition s c s' c' [ObsRegistered (thread_id c)]
| T_register_old :
    at_pc c = AtRegister → at_pc c' = AtStatus →
    thread_id c ∈ otp_waiting_threads s →
    otp_waiting_threads s' = otp_waiting_threads s →
    otp_queue s' = otp_queue s →
    transition s c s' c' []
| T_local :
    (polling (at_pc c) ∧ at_pc c ≠ AtTimeout) ∨ (in_get (at_pc c) ∧ otp_queue s = []) →
    polling (at_pc c') ∨ at_pc c' = at_pc c →
    otp_waiting_threads s' = otp_waiting_threads s →
    otp_queue s' = otp_queue s →
    transition s c s' c' []
| T_check_ok endtime :
    at_pc c = AtCheck → at_pc c' = AtGet endtime →
    head (otp_waiting_threads s) = Some (thread_id c) →
    otp_queue s ≠ [] →
    otp_waiting_threads s' = otp_waiting_threads s →
    otp_queue s' = otp_queue s →
    transition s c s' c' []
| T_pop endtime x rest :
    at_pc c = AtGet endtime → at_pc c' = AtRemove x →
    otp_queue s = x :: rest → otp_queue s' = rest →
    otp_waiting_threads s' = otp_waiting_threads s →
    transition s c s' c' [ObsPopped (thread_id c) x]
| T_leave r :
    (∃ x, at_pc c = AtRemove x ∧ r = Some x) ∨ (at_pc c = AtTimeout ∧ r = None) →
    at_pc c' = Returned r →
    otp_waiting_threads s' = list_remove_first (thread_id c) (otp_waiting_threads s) →
    otp_queue s' = otp_queue s →
    transition s c s' c' []
| T_halt :
    (∃ r, at_pc c = Returned r) ∨ (∃ e, at_pc c = Failed e) →
    s' = s → c' = c →
    transition s c s' c' [].

(** What each program point promises about the list and the queue, for
    routines with pairwise distinct ids. *)
Definition call_ok (waiting : list Z) (queue : list string) (c : call) : Prop :=
  match at_pc c with
  | AtRegister | Returned _ => thread_id c ∉ waiting
  | AtGet _ => head waiting = Some (thread_id c) ∧ queue ≠ []
  | AtRemove _ => head waiting = Some (thread_id c)
  | Failed _ => False
  | _ => thread_id c ∈ waiting
  end.

(** No two routines of the pool carry the same id. *)
Definition distinct_ids (calls : list call) : Prop :=
  NoDup (thread_id <$> calls).

Definition codes (l : list obs) : list string := (popped l).*2.
Definition served (l : list obs) : list Z := (popped l).*1.

(** Facts that hold in every reachable world, whatever the ids. *)
Record conserved (w : world) : Prop := {
  cons_nodup : NoDup (otp_waiting_threads (globals w));
  cons_fifo : delivered (log w) = codes (log w) ++ otp_queue (globals w);
  cons_held : omap held (pool w) ≡ₚ codes (log w);
  cons_order : otp_waiting_threads (globals w) `sublist_of` registered (log w)
}.

(** Facts that need pairwise distinct ids. *)
Record fair (w : world) : Prop := {
  fair_ids : distinct_ids (pool w);
  fair_calls : ∀ i c, pool w !! i = Some c →
      call_ok (otp_waiting_threads (globals w)) (otp_queue (globals w)) c;
  fair_once : NoDup (registered (log w));
  fair_entry : ∀ i c, pool w !! i = Some c → at_pc c = AtRegister →
      thread_id c ∉ registered (log w);
  fair_held : ∀ i c x, pool w !! i = Some c →
      (thread_id c, x) ∈ popped (log w) ↔ held c = Some x;
  fair_rank : (∀ c, c ∈ pool w → at_pc c ≠ Returned None) →
      registered (log w) =
      served (log w) ++
      filter (λ t, t ∉ served (log w)) (otp_waiting_threads (globals w))
}.

(** The first loop test of a non-blocking routine agrees with the clock:
    used to compare the two variants. [prompt schedule w] says so for every
    step of the run of [schedule] from [w]. *)
Definition prompt_step (e : event) (w : world) : Prop :=
  match e with
  | Step i =>
      match pool w !! i with
      | Some c =>
          at_pc c = AtWhile →
          (0 < timeout c)%Q → (clock w - start_time c < timeout c)%Q
      | None => True
      end
  | _ => True
  end.

Fixpoint prompt (schedule : list event) (w : world) : Prop :=
  match schedule with
  | [] => True
  | e :: rest => prompt_step e w ∧ prompt rest (step_world e w)
  end.

(** Program points of a blocking routine [p] and of a non-blocking
    routine [q] that correspond: the same, except that the two may sit in
    [get] with different time limits and that the blocking routine tests
    its loop condition where the non-blocking one recomputes
    [remaining_timeout]. *)
Definition twin_pc (p q : pc) : Prop :=
  match p, q with
  | AtGet _, AtGet _ => True
  | AtWhile, AtRecompute => True
  | AtRecompute, _ => False
  | _, _ => p = q
  end.

(** A routine [c1] of either variant and its non-blocking twin [c2]. *)
Definition twin (c1 c2 : call) : Prop :=
  thread_id c1 = thread_id c2 ∧ timeout c1 = timeout c2 ∧
  start_time c1 = start_time c2 ∧ shape c2 = NonBlocking ∧
  match shape c1 with
  | NonBlocking => c1 = c2
  | Blocking =>
      twin_pc (at_pc c1) (at_pc c2) ∧
      (at_pc c2 = AtWhile → remaining_timeout c2 = timeout c2)
  end.

Definition twin_world (w1 w2 : world) : Prop :=
  globals w1 = globals w2 ∧ clock w1 = clock w2 ∧ log w1 = log w2 ∧
  Forall2 twin (pool w1) (pool w2).

(** No routine has read a start time from the future. *)
Definition clock_ok (w : world) : Prop :=
  Forall (λ c, (start_time c <= clock w)%Q) (pool w).

(** Two pools entered with the same ids and timeouts. *)
Definition same_inputs (calls1 calls2 : list call) : Prop :=
  Forall2 (λ a b, thread_id a = thread_id b ∧ timeout a = timeout b) calls1 calls2.

End QueueInv.

(** ** Concrete runs *)

Module Scenario.
Import FairQueue.

(** Two workers, ids 1 and 2, timeout 5 s, one through each variant. *)
Definition two_workers : list call :=
  [enter Blocking 1 5; enter NonBlocking 2 5].

(** Both register (1 first) and start polling; "111111" arrives at t = 1
    and worker 1 takes it; "222222" arrives at t = 2 and worker 2 takes
    it. *)
Definition both_register : list event :=
  [Step 0; Step 1; Step 0; Step 1; Step 0; Step 1; Step 0; Step 1;
   Tick 1; Deliver "111111"; Step 1; Step 0].

Definition first_served : list event :=
  both_register ++ [Step 0; Step 0].

Definition in_turn : list event :=
  first_served ++
  [Tick 1; Deliver "222222"; Step 1; Step 1; Step 1; Step 1; Step 1].

(** Worker 1 waits 1 s in vain and leaves; worker 2 is then alone at the
    head and gets the code delivered at t = 1.1. *)
Definition one_second : list call :=
  [enter Blocking 1 1; enter Blocking 2 5].

Definition first_gives_up : list event :=
  [Step 0; Step 0; Step 0; Step 0; Step 0;      (* 1 registers, polls, sleeps *)
   Step 1; Step 1; Step 1; Step 1;              (* 2 registers behind it *)
   Tick 1; Step 0; Step 0].                     (* 1 wakes: time is up *)

Definition second_served : list event :=
  first_gives_up ++
  [Step 0;                                      (* 1 leaves the list *)
   Step 1; Tick 0.1; Deliver "333333";
   Step 1; Step 1; Step 1; Step 1; Step 1].

(** The two workers of [two_workers], both through one variant. *)
Definition two_through (v : variant) : list call :=
  [enter v 1 5; enter v 2 5].

(** One worker with a 1 s timeout; the code is already queued, but a
    second passes between reading the start time and the first loop
    test. *)
Definition late_first_test (v : variant) : list call := [enter v 1 1].

Definition stalled : list event :=
  [Step 0; Step 0; Deliver "111111"; Step 0; Tick 1;
   Step 0; Step 0; Step 0; Step 0].

End Scenario.

(** ** More vocabulary for the fair queue *)

Module QueueMore.
Import FairQueue.

(** Program points between registration and return. *)
Definition active (p : pc) : Prop :=
  match p with
  | AtRegister | Returned _ | Failed _ => False
  | _ => True
  end.

(** Every listed id belongs to a routine that is still under way. *)
Definition listed_active (w : world) : Prop :=
  ∀ t, t ∈ otp_waiting_threads (globals w) →
    ∃ i c, pool w !! i = Some c ∧ thread_id c = t ∧ active (at_pc c).

(** A routine that has given up has waited its full timeout. The first two
    parts are what the third needs to be kept by every step. *)
Definition patient (now : Q) (c : call) : Prop :=
  (start_time c <= now)%Q ∧
  (shape c = NonBlocking → at_pc c = AtWhile → remaining_timeout c = timeout c) ∧
  (at_pc c = AtTimeout ∨ at_pc c = Returned None →
   (timeout c <= now - start_time c)%Q).

(** The arguments a routine was entered with. *)
Definition arguments (c : call) : variant * Z * Q :=
  (shape c, thread_id c, timeout c).

End QueueMore.

(** ** The job and OTP endpoints (main.py 583-600, 4720-4740, 4778-4861) *)

Module Service.
Import Registry.

(** The start of [retrieve_policy] (main.py 4733-4740): a new thread id,
    then the guarded update of three entries of its record. Returns
    (id, counter, registry). *)
Definition retrieve_policy_begin (now : Q) (policy_no action_type : string)
    (thread_counter : Z) (browser_threads : registry)
    : result (Z * Z * registry) :=
  let '(thread_id, thread_counter, bt) :=
    get_next_thread_id now thread_counter browser_threads in
  if bool_decide (thread_id ∈ dom bt) then
    info ← dict_getitem bt thread_id;
    Ok (thread_id, thread_counter,
        <[thread_id :=
            <["action_type" := PyStr action_type]>
              (<["policy_no" := PyStr policy_no]>
                 (<["status" := PyStr "starting"]> info))]> bt)
  else Ok (thread_id, thread_counter, bt).

(** No record sits above the counter: what keeps new ids fresh. *)
Definition below_counter (thread_counter : Z) (browser_threads : registry) : Prop :=
  ∀ t, is_Some (browser_threads !! t) → t ≤ thread_counter.

(** A value of the JSON body of [POST /otp]. A value that is neither null,
    a boolean, an integer nor a string is given by what the code asks of it:
    its truth value and its [str()]. *)
Inductive json :=
| JNull
| JBool (b : bool)
| JInt (n : Z)
| JStr (s : string)
| JOther (truth : bool) (repr : string).

(** [bool(v)]. *)
Definition truthy (v : json) : bool :=
  match v with
  | JNull => false
  | JBool b => b
  | JInt n => negb (n =? 0)
  | JStr s => negb (String.eqb s "")
  | JOther truth _ => truth
  end.

(** [str(v)]. *)
Definition py_str (v : json) : string :=
  match v with
  | JNull => "None"
  | JBool true => "True"
  | JBool false => "False"
  | JInt n => pretty n
  | JStr s => s
  | JOther _ repr => repr
  end.

(** [HTTPException(status_code=...)]; the detail text is left out. *)
Inductive http_error := HTTPException (status_code : Z).

Inductive outcome (A : Type) : Type :=
| Respond (a : A)
| Abort (e : http_error).
Arguments Respond {A} a.
Arguments Abort {A} e.

(** The fields of the response of [POST /otp] that depend on the request. *)
Record otp_response := {
  success : bool;
  otp_echo : json
}.

(** The [try] block of [send_otp] for a JSON body (the handler's parameter
    is a [dict]); the scan of [browser_threads] that only feeds the log is
    left out. *)
Definition send_otp_try (now : Q) (request : gmap string json)
    (s : FairQueue.shared) (st : Legacy.otp_storage)
    : FairQueue.shared * Legacy.otp_storage * outcome otp_response :=
  let otp_code := default JNull (request !! "otp") in     (* request.get('otp') *)
  if negb (truthy otp_code)
  then (s, st, Abort (HTTPException 400))
  else (FairQueue.deliver (py_str otp_code) s,
        Legacy.put (py_str otp_code) now st,
        Respond {| success := true; otp_echo := otp_code |}).

(** [send_otp]: whatever the [try] block raises is caught by
    [except Exception] and raised again with status 500. *)
Definition send_otp (now : Q) (request : gmap string json)
    (s : FairQueue.shared) (st : Legacy.otp_storage)
    : FairQueue.shared * Legacy.otp_storage * outcome otp_response :=
  match send_otp_try now request s st with
  | (s', st', Abort _) => (s', st', Abort (HTTPException 500))
  | r => r
  end.

(** [GET /otp] (main.py 583-600): the two computed fields. A [None] or zero
    timestamp is falsy. *)
Record otp_info_response := {
  has_otp : bool;
  age_seconds : option Z
}.

Definition otp_info (now : Q) (st : Legacy.otp_storage) : otp_info_response :=
  {| has_otp := bool_decide (is_Some (Legacy.otp st));
     age_seconds :=
       match Legacy.timestamp st with
       | Some ts => if Qeq_bool ts 0 then None else Some (py_int (now - ts))
       | None => None
       end |}.

(** What can happen to the legacy slot, in any order. *)
Inductive legacy_op :=
| Put (otp_code : string) (now : Q)   (* send_otp *)
| Take (now : Q)                      (* a pass of the legacy loop *)
| Status (now : Q).                   (* GET /otp/status *)

Definition apply_op (op : legacy_op) (st : Legacy.otp_storage)
    : result Legacy.otp_storage :=
  match op with
  | Put otp_code now => Ok (Legacy.put otp_code now st)
  | Take now => r ← Legacy.take now st; Ok r.1
  | Status now => r ← Legacy.otp_status now st; Ok r.1
  end.

(** A stored code always comes with its timestamp. *)
Definition well_stamped (st : Legacy.otp_storage) : Prop :=
  is_Some (Legacy.otp st) → is_Some (Legacy.timestamp st).

Fixpoint apply_ops (ops : list legacy_op) (st : Legacy.otp_storage)
    : result Legacy.otp_storage :=
  match ops with
  | [] => Ok st
  | op :: ops' => st' ← apply_op op st; apply_ops ops' st'
  end.

End Service.

(** ** Text decisions of [run_automation_sync] (main.py 1218-1365, 1596,
       1728-1732, 2764, 2780-2818)

    A Python [str] is a [string] of bytes. On ASCII text the operations
    below are Python's [len], [in], [lower] and [split]; the properties
    are stated for ASCII text. *)

Module Automation.

(** All characters are ASCII. *)
Fixpoint ascii_text (s : string) : bool :=
  match s with
  | EmptyString => true
  | String a s' => (Strings.Ascii.nat_of_ascii a <? 128)%nat && ascii_text s'
  end.

(** [needle in hay]. *)
Fixpoint contains (needle hay : string) : bool :=
  String.prefix needle hay ||
  match hay with
  | EmptyString => false
  | String _ hay' => contains needle hay'
  end.

(** [s.lower()]. *)
Definition lower_char (a : Strings.Ascii.ascii) : Strings.Ascii.ascii :=
  let n := Strings.Ascii.nat_of_ascii a in
  if (65 <=? n)%nat && (n <=? 90)%nat then Strings.Ascii.ascii_of_nat (n + 32) else a.

Fixpoint py_lower (s : string) : string :=
  match s with
  | EmptyString => EmptyString
  | String a s' => String (lower_char a) (py_lower s')
  end.

(** The characters [str.split()] splits on: tab to carriage return, the
    four separators 0x1c-0x1f, and the space. *)
Definition is_space (a : Strings.Ascii.ascii) : bool :=
  let n := Strings.Ascii.nat_of_ascii a in
  ((9 <=? n)%nat && (n <=? 13)%nat) || ((28 <=? n)%nat && (n <=? 32)%nat).

(** [s.split()]: the maximal runs of non-space characters, [cur] being the
    run under way. *)
Fixpoint split_from (cur : string) (s : string) : list string :=
  match s with
  | EmptyString => if String.eqb cur "" then [] else [cur]
  | String a s' =>
      if is_space a
      then (if String.eqb cur "" then split_from "" s' else cur :: split_from "" s')
      else split_from (cur +:+ String a EmptyString) s'
  end.

Definition py_split (s : string) : list string := split_from "" s.

(** Driver gender (main.py 1728-1732): which radio button is clicked. *)
Inductive gender := Male | Female.

Definition select_gender (driver_gender : string) : gender :=
  let driver_gender_lower := py_lower driver_gender in
  if contains "male" driver_gender_lower || String.eqb driver_gender_lower "m"
  then Male else Female.

(** Step 8 (main.py 1218-1351): the menu entry that is clicked, or the
    [HTTPException(400)] raised for an action type that fits none. *)
Inductive action := AddDriver | UpdateDriver | ReplaceVehicle | AddVehicle.

Definition click_action (action_type : string) : option action :=
  let action_type_lower := py_lower action_type in
  if contains "add" action_type_lower && contains "driver" action_type_lower
  then Some AddDriver
  else if contains "update" action_type_lower && contains "driver" action_type_lower
  then Some UpdateDriver
  else if contains "replace" action_type_lower then Some ReplaceVehicle
  else if contains "add" action_type_lower then Some AddVehicle
  else None.

(** Step 9 (main.py 1360-1365): the date typed into the form. *)
Definition date_to_enter (action_type date_to_add_driver date_to_rep_vehical : string)
    : string :=
  if contains "driver" (py_lower action_type)
  then date_to_add_driver else date_to_rep_vehical.

(** Step 14 (main.py 1596, 2764): what is filled in next. *)
Inductive form := DriverForm | VehicleSelection | NoSelection.

Definition step14_form (action_type : string) : form :=
  let action_type_lower := py_lower action_type in
  if contains "driver" action_type_lower then DriverForm
  else if contains "replace" action_type_lower then VehicleSelection
  else NoSelection.

(** Vehicle matching (main.py 2780-2818). [vehicle_name_upper] is the
    upper-cased name of the request, [vehicle_name] the upper-cased text of
    one option. *)
Definition match_score (vehicle_name_upper vehicle_name : string) : nat :=
  if contains vehicle_name_upper vehicle_name then String.length vehicle_name_upper
  else if contains vehicle_name vehicle_name_upper then String.length vehicle_name
  else length (filter (λ word, contains word vehicle_name = true)
                 (py_split vehicle_name_upper)).

(** The loop over the options, from option number [idx] on. An option whose
    text could not be read ([None]) is skipped, as the loop's
    [except Exception: continue] does. A match is kept as the option's
    number and text. *)
Fixpoint scan_from (vehicle_name_upper : string) (idx : nat)
    (names : list (option string))
    (best_match : option (nat * string)) (best_match_score : nat)
    : option (nat * string) * nat :=
  match names with
  | [] => (best_match, best_match_score)
  | None :: rest =>
      scan_from vehicle_name_upper (S idx) rest best_match best_match_score
  | Some vehicle_name :: rest =>
      let score := match_score vehicle_name_upper vehicle_name in
      if (best_match_score <? score)%nat
      then scan_from vehicle_name_upper (S idx) rest (Some (idx, vehicle_name)) score
      else scan_from vehicle_name_upper (S idx) rest best_match best_match_score
  end.

(** The option that is clicked; [None] when the code raises "No matching
    vehicle found". *)
Definition select_vehicle (vehicle_name_upper : string)
    (names : list (option string)) : option (nat * string) :=
  match scan_from vehicle_name_upper 0 names None 0 with
  | (Some best, score) => if (score =? 0)%nat then None else Some best
  | (None, _) => None
  end.

End Automation.

(** * Properties *)

(** ** Allocator *)

Section AllocatorFacts.
Import Allocator.

Lemma get_next_debug_port_counter c :
  (get_next_debug_port c).2 = (get_next_debug_port c).1.
Proof. reflexivity. Qed.

Lemma get_next_debug_port_range c :
  9223 ≤ (get_next_debug_port c).1 ≤ 9999.
Proof.
  unfold get_next_debug_port; simpl.
  destruct (Z.ltb_spec (c + 1) 9223) as [H1|H1];
    [rewrite (proj2 (Z.ltb_ge 9999 9223)) by lia; lia|].
  destruct (Z.ltb_spec 9999 (c + 1)); lia.
Qed.

Lemma get_next_debug_port_in_range c :
  9222 ≤ c ≤ 9999 →
  (get_next_debug_port c).1 = 9223 + (c - 9222) `mod` 777.
Proof.
  intros Hc. unfold get_next_debug_port; simpl.
  rewrite (proj2 (Z.ltb_ge (c + 1) 9223)) by lia.
  destruct (Z.ltb_spec 9999 (c + 1)) as [H|H].
  - assert (c = 9999) as -> by lia. reflexivity.
  - rewrite Z.mod_small; lia.
Qed.

Lemma calls_length n c : length (calls n c).1 = n.
Proof.
  revert c. induction n as [|n IH]; intros c; cbn [calls]; [done|].
  destruct (get_next_debug_port c) as [p c'] eqn:E.
  specialize (IH c'). destruct (calls n c') as [ps f]. cbn in *. lia.
Qed.

Lemma calls_lookup n : ∀ c (j : nat),
  9222 ≤ c ≤ 9999 → (j < n)%nat →
  (calls n c).1 !! j = Some (9223 + (c - 9222 + Z.of_nat j) `mod` 777).
Proof.
  induction n as [|n IH]; intros c j Hc Hj; [lia|].
  cbn [calls]. pose proof (get_next_debug_port_range c) as Hr.
  pose proof (get_next_debug_port_in_range c Hc) as Hv.
  pose proof (get_next_debug_port_counter c) as Hk.
  destruct (get_next_debug_port c) as [p c'] eqn:E. cbn [fst snd] in *. subst c'.
  specialize (IH p). destruct (calls n p) as [ps f]. cbn [fst snd] in *.
  destruct j as [|j]; cbn [lookup list_lookup].
  - rewrite Z.add_0_r. congruence.
  - rewrite IH by lia. f_equal. f_equal. rewrite Hv.
    replace (9223 + (c - 9222) `mod` 777 - 9222 + Z.of_nat j)
      with (1 + Z.of_nat j + (c - 9222) `mod` 777) by lia.
    rewrite Zplus_mod_idemp_r. f_equal. lia.
Qed.

Lemma ports_length n : length (ports n) = n.
Proof. apply calls_length. Qed.

Lemma ports_lookup (n j : nat) :
  (j < n)%nat → ports n !! j = Some (9223 + Z.of_nat j `mod` 777).
Proof.
  intros Hj. unfold ports.
  rewrite calls_lookup by (unfold initial_counter; lia).
  replace (initial_counter - 9222 + Z.of_nat j) with (Z.of_nat j)
    by (unfold initial_counter; lia).
  reflexivity.
Qed.

End AllocatorFacts.

(** C8. Every call of [get_next_debug_port] returns a port in [9223, 9999],
    whatever the counter holds. Starting from the initial counter 9222 the
    first call returns 9223, each later call returns one more than the call
    before it, or 9223 when that call returned 9999; the n-th call returns
    [9223 + (n - 1) mod 777]; the first 777 ports are pairwise distinct and
    the 778-th is 9223 again. *)
Theorem get_next_debug_port_bounds_wraparound :
  (∀ c, 9223 ≤ (Allocator.get_next_debug_port c).1 ≤ 9999) ∧
  (∀ n, (1 ≤ n)%nat → Allocator.ports n !! 0%nat = Some 9223) ∧
  (∀ (n k : nat) p q, (1 ≤ k < n)%nat →
     Allocator.ports n !! (k - 1)%nat = Some p →
     Allocator.ports n !! k = Some q →
     q = if decide (p = 9999) then 9223 else p + 1) ∧
  (∀ n k : nat, (1 ≤ k ≤ n)%nat →
     Allocator.ports n !! (k - 1)%nat = Some (9223 + (Z.of_nat k - 1) `mod` 777)) ∧
  NoDup (Allocator.ports 777) ∧
  Allocator.ports 778 !! 777%nat = Some 9223.
Proof.
  split; [exact get_next_debug_port_range|].
  split; [intros n Hn; rewrite ports_lookup by lia; reflexivity|].
  split.
  { intros n k p q Hk Hp Hq.
    rewrite ports_lookup in Hp by lia. rewrite ports_lookup in Hq by lia.
    inversion Hp as [Hp']; inversion Hq as [Hq']; clear Hp Hq.
    replace (Z.of_nat k) with (Z.of_nat (k - 1) + 1) by lia.
    set (m := Z.of_nat (k - 1)). assert (0 ≤ m) by lia.
    pose proof (Z.mod_pos_bound m 777 ltac:(lia)) as Hb.
    rewrite Z.add_mod by lia.
    rewrite (Z.mod_small 1 777) by lia.
    case_decide as Hd.
    - assert (m `mod` 777 = 776) as -> by lia. reflexivity.
    - rewrite Z.mod_small; lia. }
  split.
  { intros n k Hk. rewrite ports_lookup by lia. do 3 f_equal. lia. }
  split.
  { apply NoDup_alt. intros i j x Hi Hj.
    pose proof (lookup_lt_Some _ _ _ Hi) as Li.
    pose proof (lookup_lt_Some _ _ _ Hj) as Lj.
    rewrite ports_length in Li, Lj.
    rewrite ports_lookup in Hi by done. rewrite ports_lookup in Hj by done.
    rewrite Z.mod_small in Hi by lia. rewrite Z.mod_small in Hj by lia.
    simplify_eq. lia. }
  rewrite ports_lookup by lia. reflexivity.
Qed.

Lemma get_next_debug_port_bounds_wraparound_witness :
  Allocator.ports 3 !! 1%nat = Some 9224.
Proof.
  assert (1 ≤ 2 ≤ 3)%nat as H by lia.
  exact (proj1 (proj2 (proj2 (proj2 get_next_debug_port_bounds_wraparound))) 3%nat 2%nat H).
Defined.

(** ** Registry *)

(** The registry hands out pairwise distinct ids, each above the counter it
    started from: the pools of the fair queue carry such ids. *)
Lemma issue_ids n : ∀ now counter bt,
  (Registry.issue n now counter bt).1.1
  = (λ k : nat, counter + 1 + Z.of_nat k) <$> seq 0 n.
Proof.
  induction n as [|n IH]; intros now counter bt; [done|].
  cbn [Registry.issue]. unfold Registry.get_next_thread_id.
  specialize (IH now (counter + 1)
    (<[counter + 1 := <["status" := Registry.PyStr "initializing"]>
                       (<["created_at" := Registry.PyNum now]> ∅)]> bt)).
  destruct (Registry.issue n now (counter + 1) _) as [[ids final] bt''].
  cbn [fst] in *. rewrite IH. cbn [seq fmap list_fmap]. f_equal; [lia|].
  rewrite <- fmap_S_seq, <- list_fmap_compose.
  apply list_fmap_ext. intros i k _. simpl. lia.
Qed.

Lemma issue_distinct n now counter bt :
  NoDup (Registry.issue n now counter bt).1.1.
Proof.
  rewrite issue_ids. apply NoDup_fmap_2; [|apply NoDup_seq].
  intros a b Hab. lia.
Qed.

(** C9. The status update never raises. When a record for the id exists,
    its "status" entry is overwritten and nothing else changes; when no
    record exists the registry is returned unchanged. *)
Theorem set_status_total_conditional (thread_id : Z) (status : string)
    (browser_threads : gmap Z (gmap string Registry.pyval)) :
  ∃ bt', Registry.set_status thread_id status browser_threads = Ok bt' ∧
    (∀ info, browser_threads !! thread_id = Some info →
       bt' = <[thread_id := <["status" := Registry.PyStr status]> info]> browser_threads ∧
       (∃ info', bt' !! thread_id = Some info' ∧
                 info' !! "status" = Some (Registry.PyStr status) ∧
                 ∀ k, k ≠ "status" → info' !! k = info !! k) ∧
       ∀ t, t ≠ thread_id → bt' !! t = browser_threads !! t) ∧
    (browser_threads !! thread_id = None → bt' = browser_threads).
Proof.
  unfold Registry.set_status, dict_getitem.
  case_bool_decide as Hd.
  - apply elem_of_dom in Hd as [info Hinfo]. rewrite Hinfo. simpl.
    eexists; split; [reflexivity|]. split; [|congruence].
    intros info0 H0. assert (info0 = info) as -> by congruence.
    split; [reflexivity|]. split.
    + eexists. split; [apply lookup_insert_eq|].
      split; [apply lookup_insert_eq|].
      intros k Hk. by rewrite lookup_insert_ne.
    + intros t Ht. by rewrite lookup_insert_ne.
  - apply not_elem_of_dom in Hd. eexists; split; [reflexivity|].
    split; [congruence|done].
Qed.

Lemma set_status_total_conditional_witness :
  ∃ bt', Registry.set_status 7 "completed" ∅ = Ok bt' ∧ bt' = ∅.
Proof.
  destruct (set_status_total_conditional 7 "completed" ∅) as (bt' & Hok & _ & Hnone).
  exists bt'. split; [exact Hok|]. apply Hnone. apply lookup_empty.
Defined.

Lemma set_status_ok thread_id status bt :
  ∃ bt', Registry.set_status thread_id status bt = Ok bt'.
Proof.
  unfold Registry.set_status, dict_getitem.
  case_bool_decide as Hd; [|by eexists].
  apply elem_of_dom in Hd as [info Hinfo]. rewrite Hinfo. by eexists.
Qed.

(** ** Legacy slot *)

Section LegacyFacts.
Import Legacy.
Local Open Scope Q_scope.

Lemma take_fresh now s otp_code ts :
  otp s = Some otp_code → timestamp s = Some ts → now - ts < 300 →
  take now s = Ok ({| otp := None; timestamp := Some ts |}, Some otp_code).
Proof.
  intros Ho Ht Hage. unfold take. rewrite Ho, Ht.
  destruct (Qlt_le_dec (now - ts) 300) as [_|Hle]; [reflexivity|lra].
Qed.

Lemma take_expired now s otp_code ts :
  otp s = Some otp_code → timestamp s = Some ts → 300 <= now - ts →
  take now s = Ok ({| otp := None; timestamp := Some ts |}, None).
Proof.
  intros Ho Ht Hage. unfold take. rewrite Ho, Ht.
  destruct (Qlt_le_dec (now - ts) 300) as [Hlt|_]; [lra|reflexivity].
Qed.

Lemma take_empty now s : otp s = None → take now s = Ok (s, None).
Proof. intros Ho. unfold take. by rewrite Ho. Qed.

Lemma otp_status_expired now s otp_code ts :
  otp s = Some otp_code → timestamp s = Some ts → 300 <= now - ts →
  otp_status now s = Ok (s, Waiting (py_int (now - ts)) 0%Z).
Proof.
  intros Ho Ht Hage. unfold otp_status. rewrite Ho, Ht.
  destruct (Qlt_le_dec (now - ts) 300) as [Hlt|_]; [lra|reflexivity].
Qed.

End LegacyFacts.

(** C7. One read of the legacy slot with the 300 second window: a value
    younger than 300 seconds is returned and the slot is cleared; a value
    aged 300 seconds or more is cleared and nothing is returned; an empty
    slot returns nothing and stays as it is. In particular a read at
    [timestamp + 300 + eps] after a [put] returns nothing and clears the
    slot. *)
Theorem legacy_take_semantics (now : Q) (s : Legacy.otp_storage) :
  (∀ otp_code ts,
     Legacy.otp s = Some otp_code → Legacy.timestamp s = Some ts →
     (now - ts < 300)%Q →
     ∃ s', Legacy.take now s = Ok (s', Some otp_code) ∧ Legacy.otp s' = None) ∧
  (∀ otp_code ts,
     Legacy.otp s = Some otp_code → Legacy.timestamp s = Some ts →
     (300 <= now - ts)%Q →
     ∃ s', Legacy.take now s = Ok (s', None) ∧ Legacy.otp s' = None) ∧
  (Legacy.otp s = None → Legacy.take now s = Ok (s, None)) ∧
  (∀ otp_code ts eps, (0 < eps)%Q →
     ∃ s', Legacy.take (ts + 300 + eps) (Legacy.put otp_code ts s) = Ok (s', None) ∧
           Legacy.otp s' = None).
Proof.
  repeat split.
  - intros otp_code ts Ho Ht Hage. eexists; split; [by apply take_fresh|done].
  - intros otp_code ts Ho Ht Hage. eexists; split; [by eapply take_expired|done].
  - apply take_empty.
  - intros otp_code ts eps Heps.
    exists {| Legacy.otp := None; Legacy.timestamp := Some ts |}. split; [|reflexivity].
    eapply (take_expired _ _ otp_code ts); [reflexivity|reflexivity|lra].
Qed.

Lemma legacy_take_semantics_witness :
  ∃ s', Legacy.take 10 (Legacy.put "123456" 4 Legacy.initial) = Ok (s', Some "123456")
        ∧ Legacy.otp s' = None.
Proof.
  refine (proj1 (legacy_take_semantics 10 (Legacy.put "123456" 4 Legacy.initial))
            "123456" 4%Q eq_refl eq_refl _).
  reflexivity.
Defined.

(** C10. The status endpoint ignores expiry: for a stored value aged 300
    seconds or more it answers waiting with [expires_in = 0] and leaves the
    slot as it is, at that time and at every later time; only a take clears
    the slot, after which the endpoint answers not waiting. *)
Theorem otp_status_ignores_expiry (now : Q) (s : Legacy.otp_storage)
    (otp_code : string) (ts : Q) :
  Legacy.otp s = Some otp_code → Legacy.timestamp s = Some ts →
  (300 <= now - ts)%Q →
  Legacy.otp_status now s = Ok (s, Legacy.Waiting (py_int (now - ts)) 0) ∧
  (∀ later, (now <= later)%Q →
     Legacy.otp_status later s = Ok (s, Legacy.Waiting (py_int (later - ts)) 0)) ∧
  (∃ s', Legacy.take now s = Ok (s', None) ∧
         Legacy.otp_status now s' = Ok (s', Legacy.NotWaiting)).
Proof.
  intros Ho Ht Hage. split; [by eapply otp_status_expired|]. split.
  - intros later Hl. eapply otp_status_expired; [done|done|lra].
  - eexists. split; [by eapply take_expired|reflexivity].
Qed.

Lemma otp_status_ignores_expiry_witness :
  Legacy.otp_status 1000 (Legacy.put "123456" 4 Legacy.initial)
  = Ok (Legacy.put "123456" 4 Legacy.initial, Legacy.Waiting 996 0).
Proof.
  refine (proj1 (otp_status_ignores_expiry 1000 (Legacy.put "123456" 4 Legacy.initial)
                   "123456" 4%Q eq_refl eq_refl _)).
  unfold Qle; simpl; lia.
Defined.

(** ** Fair queue: list lemmas *)

Section RemoveFirst.
Implicit Types (l : list Z) (x t : Z).

Lemma list_remove_first_head t l : list_remove_first t (t :: l) = l.
Proof. simpl. by rewrite decide_True. Qed.

Lemma list_remove_first_notin t l : t ∉ l → list_remove_first t l = l.
Proof.
  induction l as [|y l IH]; [done|]. intros Hn.
  apply not_elem_of_cons in Hn as [Hne Hn]. simpl.
  rewrite decide_False by done. by rewrite IH.
Qed.

Lemma list_remove_first_sublist t l : list_remove_first t l `sublist_of` l.
Proof.
  induction l as [|y l IH]; [done|]. simpl. case_decide.
  - by apply sublist_cons.
  - by apply sublist_skip.
Qed.

Lemma elem_of_list_remove_first_ne t x l :
  t ≠ x → x ∈ list_remove_first t l ↔ x ∈ l.
Proof.
  intros Hne. induction l as [|y l IH]; [done|]. simpl. case_decide.
  - subst y. rewrite elem_of_cons. split; [auto|]. by intros [<-|?].
  - rewrite !elem_of_cons, IH. done.
Qed.

Lemma NoDup_list_remove_first t l :
  NoDup l → NoDup (list_remove_first t l) ∧ t ∉ list_remove_first t l.
Proof.
  induction l as [|y l IH]; [intros _; split; [constructor|apply not_elem_of_nil]|].
  intros [Hy Hl]%NoDup_cons. simpl. case_decide as Hd.
  - subst y. done.
  - destruct (IH Hl) as [IH1 IH2]. split.
    + apply NoDup_cons. split; [|done].
      intros Hin. apply Hy. by apply (elem_of_list_remove_first_ne t y l).
    + apply not_elem_of_cons. done.
Qed.

Lemma head_list_remove_first_ne t x l :
  head l = Some x → t ≠ x → head (list_remove_first t l) = Some x.
Proof.
  destruct l as [|y l]; [done|]. simpl. intros [= ->] Hne.
  by rewrite decide_False.
Qed.

End RemoveFirst.

Lemma head_Some_cons {A} (l : list A) (a : A) : head l = Some a → ∃ l', l = a :: l'.
Proof. destruct l; [done|]. intros [= ->]. by eexists. Qed.

Lemma head_snoc {A} (l : list A) (a b : A) : head l = Some a → head (l ++ [b]) = Some a.
Proof. by destruct l. Qed.

(** ** Fair queue: one step of one routine *)

Section StepFacts.
Import FairQueue QueueInv.

Lemma leave_waiting s c :
  otp_waiting_threads (leave s c)
  = list_remove_first (thread_id c) (otp_waiting_threads s).
Proof.
  unfold leave. case_bool_decide as Hd; [done|].
  by rewrite list_remove_first_notin.
Qed.

Lemma leave_queue s c : otp_queue (leave s c) = otp_queue s.
Proof. unfold leave. by case_bool_decide. Qed.

Lemma my_turn_true s c :
  my_turn s c = true →
  head (otp_waiting_threads s) = Some (thread_id c) ∧ otp_queue s ≠ [].
Proof.
  unfold my_turn. intros H.
  apply andb_prop in H as [Hq H]. apply andb_prop in H as [_ H].
  apply bool_decide_eq_true in Hq, H. split; [done|].
  destruct (otp_queue s); [simpl in Hq; lia|done].
Qed.

Lemma my_turn_head s c :
  head (otp_waiting_threads s) = Some (thread_id c) → otp_queue s ≠ [] →
  my_turn s c = true.
Proof.
  intros Hh Hq. unfold my_turn.
  rewrite !andb_true_iff, !bool_decide_eq_true. split; [|split; [|done]].
  - destruct (otp_queue s); [done|simpl; lia].
  - destruct (otp_waiting_threads s); [done|simpl; lia].
Qed.

(** A step never changes the arguments of the routine. *)
Lemma step_call_args now s c s' c' o :
  step_call now s c = (s', c', o) →
  shape c' = shape c ∧ thread_id c' = thread_id c ∧ timeout c' = timeout c.
Proof.
  unfold step_call, wait_for_otp_sync, wait_for_otp_from_api,
    register, mark_waiting.
  intros H.
  destruct (shape c) eqn:Hs, (at_pc c) eqn:Hp;
    repeat (match type of H with
            | context [if ?b then _ else _] => destruct b
            | context [match otp_queue s with _ => _ end] => destruct (otp_queue s)
            | context [match Registry.set_status ?a ?b ?d with _ => _ end] =>
                destruct (Registry.set_status a b d)
            end);
    simplify_eq; done.
Qed.

Lemma step_call_transition now s c s' c' o :
  step_call now s c = (s', c', o) → transition s c s' c' o.
Proof.
  unfold step_call, wait_for_otp_sync, wait_for_otp_from_api.
  intros H.
  destruct (at_pc c) eqn:Hp.
  - (* AtRegister *)
    assert (register s c = (s', c', o)) as Hr by (by destruct (shape c)).
    clear H. unfold register in Hr. case_bool_decide as Hd; simplify_eq.
    + by apply T_register_old.
    + by apply T_register_new.
  - (* AtStatus *)
    assert (mark_waiting s c = (s', c', o)) as Hr by (by destruct (shape c)).
    clear H. unfold mark_waiting in Hr.
    destruct (set_status_ok (thread_id c) "waiting_for_otp" (browser_threads s))
      as [bt Hbt].
    rewrite Hbt in Hr. simplify_eq.
    apply T_local; rewrite ?Hp; simpl; auto.
  - (* AtStart *)
    destruct (shape c); simplify_eq; apply T_local; rewrite ?Hp; simpl; auto.
  - (* AtWhile *)
    destruct (shape c);
      repeat (match type of H with
              | context [if ?b then _ else _] => destruct b end);
      simplify_eq; apply T_local; rewrite ?Hp; simpl; auto.
  - (* AtCheck *)
    destruct (my_turn s c) eqn:Ht.
    + apply my_turn_true in Ht as [Hh Hq].
      destruct (shape c); simplify_eq; by eapply T_check_ok.
    + destruct (shape c); simplify_eq; apply T_local; rewrite ?Hp; simpl; auto.
  - (* AtGet *)
    destruct (otp_queue s) as [|x rest] eqn:Hq.
    + destruct (shape c);
        repeat (match type of H with
                | context [if ?b then _ else _] => destruct b end);
        simplify_eq; apply T_local; rewrite ?Hp; simpl; auto.
    + destruct (shape c); simplify_eq; by eapply T_pop.
  - (* AtRemove *)
    destruct (shape c); simplify_eq;
      (eapply T_leave; [left; by eexists | done | apply leave_waiting | apply leave_queue]).
  - (* AtSleep *)
    destruct (shape c);
      repeat (match type of H with
              | context [if ?b then _ else _] => destruct b end);
      simplify_eq; apply T_local; rewrite ?Hp; simpl; auto.
  - (* AtRecompute *)
    destruct (shape c);
      repeat (match type of H with
              | context [if ?b then _ else _] => destruct b end);
      simplify_eq; apply T_local; rewrite ?Hp; simpl; auto.
  - (* AtTimeout *)
    destruct (shape c); simplify_eq;
      (eapply T_leave; [right; done | done | apply leave_waiting | apply leave_queue]).
  - (* Returned *)
    destruct (shape c); simplify_eq; apply T_halt; eauto.
  - (* Failed *)
    destruct (shape c); simplify_eq; apply T_halt; eauto.
Qed.

End StepFacts.

(** ** Fair queue: steps of the interleaved system *)

Section WorldFacts.
Import FairQueue QueueInv.

Lemma step_world_Step w i c :
  pool w !! i = Some c →
  ∃ s' c' o,
    step_call (clock w) (globals w) c = (s', c', o) ∧
    step_world (Step i) w
    = {| globals := s'; clock := clock w;
         pool := <[i := c']> (pool w); log := log w ++ o |}.
Proof.
  intros Hc. unfold step_world. rewrite Hc.
  destruct (step_call (clock w) (globals w) c) as [[s' c'] o].
  by exists s', c', o.
Qed.

Lemma step_world_Step_None w i : pool w !! i = None → step_world (Step i) w = w.
Proof. intros Hc. unfold step_world. by rewrite Hc. Qed.

Lemma run_snoc schedule e w :
  run (schedule ++ [e]) w = step_world e (run schedule w).
Proof. unfold run. by rewrite foldl_app. Qed.

Lemma run_app s1 s2 w : run (s1 ++ s2) w = run s2 (run s1 w).
Proof. unfold run. by rewrite foldl_app. Qed.

Lemma run_cons e schedule w : run (e :: schedule) w = run schedule (step_world e w).
Proof. reflexivity. Qed.

(** Induction principle: a property of the start that every step keeps
    holds after every schedule. *)
Lemma run_invariant (P : world → Prop) :
  (∀ e w, P w → P (step_world e w)) →
  ∀ schedule w, P w → P (run schedule w).
Proof.
  intros Hstep schedule. induction schedule as [|e schedule IH]; intros w Hw; [done|].
  rewrite run_cons. apply IH. by apply Hstep.
Qed.

Lemma registered_app l1 l2 : registered (l1 ++ l2) = registered l1 ++ registered l2.
Proof. apply omap_app. Qed.

Lemma delivered_app l1 l2 : delivered (l1 ++ l2) = delivered l1 ++ delivered l2.
Proof. apply omap_app. Qed.

Lemma popped_app l1 l2 : popped (l1 ++ l2) = popped l1 ++ popped l2.
Proof. apply omap_app. Qed.

Lemma codes_app l1 l2 : codes (l1 ++ l2) = codes l1 ++ codes l2.
Proof. unfold codes. by rewrite popped_app, fmap_app. Qed.

Lemma served_app l1 l2 : served (l1 ++ l2) = served l1 ++ served l2.
Proof. unfold served. by rewrite popped_app, fmap_app. Qed.

(** Replacing one routine of the pool changes the multiset of held codes
    at that routine only. *)
Lemma omap_held_insert (calls : list call) i c c' :
  calls !! i = Some c →
  ∃ others,
    omap held calls ≡ₚ option_list (held c) ++ others ∧
    omap held (<[i := c']> calls) ≡ₚ option_list (held c') ++ others.
Proof.
  intros Hi. exists (omap held (take i calls) ++ omap held (drop (S i) calls)).
  assert (i < length calls)%nat as Hlt by (by eapply lookup_lt_Some).
  split.
  - rewrite <- (take_drop_middle calls i c Hi) at 1.
    rewrite omap_app. simpl. destruct (held c); simpl; [|done].
    by rewrite Permutation_middle.
  - rewrite insert_take_drop by done.
    rewrite omap_app. simpl. destruct (held c'); simpl; [|done].
    by rewrite Permutation_middle.
Qed.

Lemma omap_held_insert_same (calls : list call) i c c' :
  calls !! i = Some c → held c' = held c →
  omap held (<[i := c']> calls) ≡ₚ omap held calls.
Proof.
  intros Hi Hh. destruct (omap_held_insert calls i c c' Hi) as (others & H1 & H2).
  rewrite H1, H2. by rewrite Hh.
Qed.

End WorldFacts.

(** ** Fair queue: what every reachable world satisfies *)

(** Case analysis on a [transition], with fixed names: [Hp], [Hp'] for the
    program points, [Hl], [Hq], [Hq'] for the list and the queue. *)
Ltac transition_cases H :=
  destruct H as
    [Hp Hp' Hn Hl Hq | Hp Hp' Hn Hl Hq | Hp Hp' Hl Hq | endt Hp Hp' Hhd Hnq Hl Hq
    | endt code rest Hp Hp' Hq Hq' Hl | r Hp Hp' Hl Hq | Hp -> ->].

Section Conserved.
Import FairQueue QueueInv.

Lemma conserved_boot bt calls : conserved (boot bt calls).
Proof.
  split; simpl.
  - constructor.
  - reflexivity.
  - unfold codes; simpl. induction calls as [|c calls IH]; [done|]. by simpl.
  - done.
Qed.

Lemma held_transition s c s' c' o :
  transition s c s' c' o →
  (∃ t x, o = [ObsPopped t x] ∧ t = thread_id c ∧ held c = None ∧ held c' = Some x)
  ∨ (popped o = [] ∧ held c' = held c).
Proof.
  intros Htr. unfold held. transition_cases Htr.
  - right. by rewrite Hp, Hp'.
  - right. by rewrite Hp, Hp'.
  - right. split; [done|]. destruct Hp' as [Hp'| ->]; [|done].
    destruct Hp as [[Hp _]|[Hp _]]; destruct (at_pc c), (at_pc c'); done.
  - right. by rewrite Hp, Hp'.
  - left. exists (thread_id c), code. by rewrite Hp, Hp'.
  - right. split; [done|]. rewrite Hp'.
    destruct Hp as [(x & -> & ->)|[-> ->]]; done.
  - by right.
Qed.

Lemma conserved_step e w : conserved w → conserved (step_world e w).
Proof.
  intros [Hnd Hfifo Hheld Hord]. destruct e as [i|x|d].
  - destruct (pool w !! i) as [c|] eqn:Hc;
      [|rewrite step_world_Step_None by done; by split].
    destruct (step_world_Step w i c Hc) as (s' & c' & o & Hstep & ->).
    apply step_call_transition in Hstep.
    pose proof (held_transition _ _ _ _ _ Hstep) as Hkeep.
    split; simpl.
    + (* the list stays duplicate-free *)
      transition_cases Hstep; try congruence.
      * rewrite Hl. apply NoDup_app. split; [done|].
        split; [|apply NoDup_singleton].
        intros y Hy ->%list_elem_of_singleton. done.
      * rewrite Hl. by apply NoDup_list_remove_first.
    + (* delivered = popped ++ queue *)
      rewrite delivered_app, codes_app.
      transition_cases Hstep; simpl; rewrite ?app_nil_r; try congruence.
      unfold codes; simpl. rewrite Hq', Hfifo, Hq, <- app_assoc. done.
    + (* held codes are the popped codes *)
      rewrite codes_app.
      destruct Hkeep as [(t & x & -> & _ & Hn & Hs)|[Hp Hs]].
      * destruct (omap_held_insert (pool w) i c c' Hc) as (others & H1 & H2).
        rewrite H2, Hs. rewrite H1, Hn in Hheld. simpl in *.
        unfold codes at 2; simpl. rewrite <- Hheld.
        by rewrite Permutation_cons_append.
      * rewrite omap_held_insert_same by done.
        unfold codes at 2. rewrite Hp. simpl. by rewrite app_nil_r.
    + (* the list is in registration order *)
      rewrite registered_app.
      transition_cases Hstep; simpl; rewrite ?app_nil_r; try congruence.
      * rewrite Hl. by apply sublist_app.
      * rewrite Hl. etrans; [apply list_remove_first_sublist|done].
  - split; simpl.
    + done.
    + rewrite delivered_app, codes_app. simpl.
      unfold codes at 2; simpl. rewrite app_nil_r, Hfifo, app_assoc. done.
    + rewrite codes_app. unfold codes at 2; simpl. by rewrite app_nil_r.
    + rewrite registered_app. simpl. by rewrite app_nil_r.
  - unfold step_world. destruct (Qlt_le_dec 0 d); by split.
Qed.

Lemma conserved_run bt calls schedule : conserved (run schedule (boot bt calls)).
Proof. apply run_invariant; [apply conserved_step|apply conserved_boot]. Qed.

End Conserved.

(** ** Fair queue: what distinct ids add *)

Section Fair.
Import FairQueue QueueInv.

Lemma pool_insert_lookup (calls : list call) i j c c' cj :
  distinct_ids calls → calls !! i = Some c → thread_id c' = thread_id c →
  <[i := c']> calls !! j = Some cj →
  (j = i ∧ cj = c') ∨ (j ≠ i ∧ calls !! j = Some cj ∧ thread_id cj ≠ thread_id c).
Proof.
  intros Hd Hi Ht Hj. destruct (decide (j = i)) as [->|Hne].
  - left. split; [done|].
    rewrite list_lookup_insert_eq in Hj by (by eapply lookup_lt_Some). congruence.
  - right. rewrite list_lookup_insert_ne in Hj by done.
    split; [done|]. split; [done|]. intros Heq. apply Hne.
    eapply (proj1 (NoDup_alt _) Hd j i (thread_id c));
      rewrite list_lookup_fmap; [rewrite Hj|rewrite Hi]; simpl; congruence.
Qed.

Lemma distinct_ids_insert (calls : list call) i c c' :
  distinct_ids calls → calls !! i = Some c → thread_id c' = thread_id c →
  distinct_ids (<[i := c']> calls).
Proof.
  unfold distinct_ids. intros Hd Hi Ht.
  rewrite list_fmap_insert, Ht.
  rewrite list_insert_id; [done|]. by rewrite list_lookup_fmap, Hi.
Qed.

Lemma elem_of_pool_insert (calls : list call) i c c' cj :
  calls !! i = Some c → cj ∈ calls → cj = c ∨ cj ∈ <[i := c']> calls.
Proof.
  intros Hi [j Hj]%list_elem_of_lookup. destruct (decide (j = i)) as [->|Hne].
  - left. congruence.
  - right. apply list_elem_of_lookup. exists j.
    by rewrite list_lookup_insert_ne.
Qed.

(** [call_ok] only looks at membership, the head and emptiness. *)
Lemma call_ok_mono waiting queue waiting' queue' c :
  call_ok waiting queue c →
  (thread_id c ∈ waiting ↔ thread_id c ∈ waiting') →
  (head waiting = Some (thread_id c) → head waiting' = Some (thread_id c)) →
  (queue ≠ [] → in_get (at_pc c) → queue' ≠ []) →
  call_ok waiting' queue' c.
Proof.
  unfold call_ok. intros Hok Hin Hhd Hq.
  destruct (at_pc c); simpl in *; tauto.
Qed.

Lemma call_ok_pc waiting queue c c' :
  at_pc c' = at_pc c → thread_id c' = thread_id c →
  call_ok waiting queue c → call_ok waiting queue c'.
Proof. unfold call_ok. by intros -> ->. Qed.

Lemma call_ok_polling waiting queue c :
  polling (at_pc c) → call_ok waiting queue c ↔ thread_id c ∈ waiting.
Proof. unfold call_ok. by destruct (at_pc c). Qed.

Lemma call_ok_head waiting queue c :
  call_ok waiting queue c →
  in_get (at_pc c) ∨ (∃ x, at_pc c = AtRemove x) →
  head waiting = Some (thread_id c).
Proof.
  unfold call_ok. intros Hok [Hg|[x Hx]].
  - destruct (at_pc c); simpl in *; tauto.
  - by rewrite Hx in Hok.
Qed.

Lemma call_ok_member waiting queue c :
  call_ok waiting queue c →
  polling (at_pc c) ∨ in_get (at_pc c) ∨ (∃ x, at_pc c = AtRemove x) →
  thread_id c ∈ waiting.
Proof.
  intros Hok [Hp|Hh].
  - by apply (call_ok_polling waiting queue c).
  - apply (call_ok_head _ _ _ Hok) in Hh.
    apply head_Some_cons in Hh as [l' ->]. apply list_elem_of_here.
Qed.

Lemma not_served_of_not_held (l : list obs) t :
  (∀ x, (t, x) ∉ popped l) → t ∉ served l.
Proof.
  intros Hn [[t' x] [Ht Hin]]%list_elem_of_fmap. simpl in Ht. subst t'.
  by apply (Hn x).
Qed.

Lemma served_of_held (l : list obs) t x : (t, x) ∈ popped l → t ∈ served l.
Proof. intros Hin. apply list_elem_of_fmap. by exists (t, x). Qed.

Lemma filter_not_served_snoc (served0 : list Z) t (l : list Z) :
  t ∉ l →
  filter (λ y, y ∉ served0 ++ [t]) l = filter (λ y, y ∉ served0) l.
Proof.
  induction l as [|y l IH]; [done|].
  intros [Hne Hn]%not_elem_of_cons. rewrite !filter_cons, IH by done.
  destruct (decide (y ∉ served0 ++ [t])) as [H1|H1],
           (decide (y ∉ served0)) as [H2|H2]; try done.
  - exfalso. apply H2. intros Hin. apply H1. apply elem_of_app. by left.
  - exfalso. apply H1. intros [Hin|Hin%list_elem_of_singleton]%elem_of_app; done.
Qed.

Lemma fair_boot bt calls : distinct_ids calls → fair (boot bt calls).
Proof.
  intros Hd. split; simpl.
  - unfold distinct_ids in *. by rewrite <- list_fmap_compose.
  - intros i c Hc. rewrite list_lookup_fmap in Hc.
    destruct (calls !! i); simplify_eq/=. unfold call_ok; simpl.
    apply not_elem_of_nil.
  - constructor.
  - intros. apply not_elem_of_nil.
  - intros i c x Hc. rewrite list_lookup_fmap in Hc.
    destruct (calls !! i); simplify_eq/=. split; [by intros ?%not_elem_of_nil|done].
  - done.
Qed.

Section OneStep.
Context (w : world) (i : nat) (c c' : call) (s' : shared) (o : list obs).
Hypothesis (Hfair : fair w) (Hcons : conserved w).
Hypothesis (Hc : pool w !! i = Some c).
Hypothesis (Htr : transition (globals w) c s' c' o).
Hypothesis (Hargs : thread_id c' = thread_id c).

Let waiting := otp_waiting_threads (globals w).
Let queue := otp_queue (globals w).

Lemma fair_step_own : call_ok (otp_waiting_threads s') (otp_queue s') c'.
Proof using Hfair Hcons Hc Htr Hargs.
  pose proof (fair_calls w Hfair i c Hc) as Hok.
  pose proof (cons_nodup w Hcons) as Hnd.
  transition_cases Htr.
  - apply call_ok_polling; [by rewrite Hp'|].
    rewrite Hl, Hargs. apply elem_of_app. right. apply list_elem_of_here.
  - apply call_ok_polling; [by rewrite Hp'|]. by rewrite Hl, Hargs.
  - rewrite Hl, Hq. destruct Hp as [[Hp _]|[Hp Hempty]].
    + apply (call_ok_polling _ (otp_queue (globals w))) in Hok; [|done].
      destruct Hp' as [Hp'|Hp']; [|by eapply call_ok_pc; [..|by apply call_ok_polling]].
      apply call_ok_polling; [done|]. by rewrite Hargs.
    + exfalso. unfold call_ok in Hok.
      destruct (at_pc c); simpl in Hp; try done. by destruct Hok.
  - unfold call_ok. rewrite Hp', Hl, Hq, Hargs. done.
  - unfold call_ok. rewrite Hp', Hl, Hargs.
    apply (call_ok_head _ _ _ Hok). left. by rewrite Hp.
  - unfold call_ok. rewrite Hp', Hl, Hargs.
    by apply NoDup_list_remove_first.
  - done.
Qed.

Lemma fair_step_other j cj :
  j ≠ i → pool w !! j = Some cj → thread_id cj ≠ thread_id c →
  call_ok (otp_waiting_threads s') (otp_queue s') cj.
Proof using Hfair Hcons Hc Htr Hargs.
  intros Hne Hj Hid.
  pose proof (fair_calls w Hfair i c Hc) as Hok.
  pose proof (fair_calls w Hfair j cj Hj) as Hokj.
  apply (call_ok_mono _ _ _ _ _ Hokj); transition_cases Htr;
    rewrite ?Hl, ?Hq, ?Hq'; try done.
  - rewrite elem_of_app, list_elem_of_singleton.
    split; [by left|]. by intros [?|?].
  - by symmetry; apply elem_of_list_remove_first_ne.
  - apply head_snoc.
  - intros Hh. by apply head_list_remove_first_ne.
  - intros _ Hg. exfalso. apply Hid.
    assert (head (otp_waiting_threads (globals w)) = Some (thread_id cj)) as H1
      by (apply (call_ok_head _ _ _ Hokj); by left).
    assert (head (otp_waiting_threads (globals w)) = Some (thread_id c)) as H2
      by (apply (call_ok_head _ _ _ Hok); left; by rewrite Hp).
    congruence.
Qed.

Lemma registered_transition :
  o = [ObsRegistered (thread_id c)] ∧ at_pc c = AtRegister ∨ registered o = [].
Proof using Htr Hargs. transition_cases Htr; auto. Qed.

Lemma not_entry_transition : at_pc c' ≠ AtRegister.
Proof using Htr Hargs.
  transition_cases Htr; try congruence.
  - destruct Hp' as [Hp'|Hp']; [by destruct (at_pc c')|].
    rewrite Hp'. destruct Hp as [[Hp _]|[Hp _]]; by destruct (at_pc c).
  - by destruct Hp as [[r' ->]|[e' ->]].
Qed.

Lemma fair_step_once : NoDup (registered (log w ++ o)).
Proof using Hfair Hc Htr Hargs.
  rewrite registered_app.
  destruct registered_transition as [[-> Hp]| ->];
    [|rewrite app_nil_r; by apply fair_once].
  simpl. apply NoDup_app. split; [by apply fair_once|].
  split; [|apply NoDup_singleton].
  intros y Hy ->%list_elem_of_singleton.
  by apply (fair_entry w Hfair i c Hc Hp).
Qed.

Lemma fair_step_entry j cj :
  <[i := c']> (pool w) !! j = Some cj → at_pc cj = AtRegister →
  thread_id cj ∉ registered (log w ++ o).
Proof using Hfair Hc Htr Hargs.
  intros Hj Hpj.
  destruct (pool_insert_lookup _ _ _ _ _ _ (fair_ids w Hfair) Hc Hargs Hj)
    as [[-> ->]|(Hne & Hj' & Hid)]; [by apply not_entry_transition in Hpj|].
  rewrite registered_app.
  pose proof (fair_entry w Hfair j cj Hj' Hpj) as Hn.
  destruct registered_transition as [[-> Hp]| ->]; [|by rewrite app_nil_r].
  simpl. intros [?|Hin%list_elem_of_singleton]%elem_of_app; done.
Qed.

Lemma fair_step_held j cj x :
  <[i := c']> (pool w) !! j = Some cj →
  (thread_id cj, x) ∈ popped (log w ++ o) ↔ held cj = Some x.
Proof using Hfair Hc Htr Hargs.
  intros Hj. rewrite popped_app.
  pose proof (held_transition _ _ _ _ _ Htr) as Hkeep.
  destruct (pool_insert_lookup _ _ _ _ _ _ (fair_ids w Hfair) Hc Hargs Hj)
    as [[-> ->]|(Hne & Hj' & Hid)].
  - rewrite Hargs.
    destruct Hkeep as [(t & y & -> & -> & Hn & Hs)|[-> Hs]].
    + simpl. rewrite Hs, elem_of_app, list_elem_of_singleton.
      split; [|intros [= ->]; by right].
      intros [Hin|[= ->]]; [|done].
      apply (fair_held w Hfair i c x Hc) in Hin. congruence.
    + rewrite app_nil_r, Hs. by apply (fair_held w Hfair i c).
  - rewrite <- (fair_held w Hfair j cj x Hj').
    destruct Hkeep as [(t & y & -> & -> & Hn & Hs)|[-> Hs]];
      [|by rewrite app_nil_r].
    simpl. rewrite elem_of_app, list_elem_of_singleton.
    split; [|by left]. intros [?|[= ? ?]]; done.
Qed.

Lemma returned_transition res : at_pc c = Returned res → at_pc c' = Returned res.
Proof using Htr Hargs.
  intros Hr. transition_cases Htr; try congruence.
  - destruct Hp as [[Hp _]|[Hp _]]; by rewrite Hr in Hp.
  - destruct Hp as [(y & Hp & _)|[Hp _]]; congruence.
Qed.

Lemma own_not_served : held c = None → thread_id c ∉ served (log w).
Proof using Hfair Hc.
  intros Hn. apply not_served_of_not_held. intros x Hin.
  apply (fair_held w Hfair i c x Hc) in Hin. congruence.
Qed.

Lemma fair_step_rank :
  (∀ cj, cj ∈ <[i := c']> (pool w) → at_pc cj ≠ Returned None) →
  registered (log w ++ o) =
  served (log w ++ o) ++
  filter (λ t, t ∉ served (log w ++ o)) (otp_waiting_threads s').
Proof using Hfair Hcons Hc Htr Hargs.
  intros Hno.
  assert (c' ∈ <[i := c']> (pool w)) as Hin'.
  { apply list_elem_of_lookup. exists i.
    apply list_lookup_insert_eq. by eapply lookup_lt_Some. }
  assert (∀ cj, cj ∈ pool w → at_pc cj ≠ Returned None) as Hno0.
  { intros cj Hin. destruct (elem_of_pool_insert _ i c c' cj Hc Hin) as [->|Hin2];
      [|by apply Hno].
    intros Hr. apply returned_transition in Hr. by apply (Hno c'). }
  pose proof (fair_rank w Hfair Hno0) as IH.
  pose proof (fair_calls w Hfair i c Hc) as Hok.
  pose proof (cons_nodup w Hcons) as Hnd.
  rewrite registered_app, served_app.
  transition_cases Htr; simpl; rewrite ?app_nil_r, ?Hl; try done.
  - (* a new registration goes to the tail of both *)
    rewrite filter_app, filter_cons, filter_nil.
    rewrite decide_True by (apply own_not_served; unfold held; by rewrite Hp).
    by rewrite IH, app_assoc.
  - (* a pop moves the head from the list part to the served part *)
    change (served [ObsPopped (thread_id c) code]) with [thread_id c].
    assert (head (otp_waiting_threads (globals w)) = Some (thread_id c)) as Hhd
      by (apply (call_ok_head _ _ _ Hok); left; by rewrite Hp).
    apply head_Some_cons in Hhd as [others Hw]. rewrite Hw in IH, Hnd |- *.
    apply NoDup_cons in Hnd as [Hnotin _].
    rewrite filter_cons in IH.
    rewrite decide_True in IH by (apply own_not_served; unfold held; by rewrite Hp).
    rewrite filter_cons, decide_False
      by (intros Hx; apply Hx, elem_of_app; right; apply list_elem_of_here).
    rewrite filter_not_served_snoc by done.
    by rewrite IH, <- app_assoc.
  - (* leaving after a pop drops an id that was already served *)
    destruct Hp as [(y & Hp & ->)|[_ ->]]; [|by exfalso; apply (Hno c')].
    assert (head (otp_waiting_threads (globals w)) = Some (thread_id c)) as Hhd
      by (apply (call_ok_head _ _ _ Hok); right; by eexists).
    apply head_Some_cons in Hhd as [others Hw]. rewrite Hw in IH |- *.
    rewrite list_remove_first_head.
    rewrite filter_cons, decide_False in IH; [done|].
    intros Hx. apply Hx. apply (served_of_held _ _ y).
    apply (fair_held w Hfair i c y Hc). unfold held. by rewrite Hp.
Qed.

End OneStep.

Lemma fair_step e w : conserved w → fair w → fair (step_world e w).
Proof.
  intros Hcons Hfair. destruct e as [i|x|d].
  - destruct (pool w !! i) as [c|] eqn:Hc;
      [|by rewrite step_world_Step_None].
    destruct (step_world_Step w i c Hc) as (s' & c' & o & Hstep & ->).
    pose proof (step_call_args _ _ _ _ _ _ Hstep) as (_ & Hargs & _).
    apply step_call_transition in Hstep.
    split; simpl.
    + by eapply distinct_ids_insert; [apply fair_ids|..].
    + intros j cj Hj.
      destruct (pool_insert_lookup _ _ _ _ _ _ (fair_ids w Hfair) Hc Hargs Hj)
        as [[-> ->]|(Hne & Hj' & Hid)].
      * eapply (fair_step_own w i c); eauto.
      * eapply (fair_step_other w i c c'); eauto.
    + eapply (fair_step_once w i c c'); eauto.
    + intros j cj. eapply (fair_step_entry w i c c'); eauto.
    + intros j cj x. eapply (fair_step_held w i c c'); eauto.
    + eapply (fair_step_rank w i c c'); eauto.
  - destruct Hfair as [Hids Hcalls Honce Hentry Hheld Hrank]. split; simpl.
    + done.
    + intros i c Hc. apply (call_ok_mono _ _ _ _ _ (Hcalls i c Hc)); [done|done|].
      intros _ _. by destruct (otp_queue (globals w)).
    + rewrite registered_app; simpl. by rewrite app_nil_r.
    + intros i c Hc Hp. rewrite registered_app; simpl. rewrite app_nil_r. eauto.
    + intros i c y Hc. rewrite popped_app; simpl. rewrite app_nil_r. eauto.
    + intros Hno.
      assert (served (log w ++ [ObsDelivered x]) = served (log w)) as ->
        by (rewrite served_app; apply app_nil_r).
      rewrite registered_app; simpl. rewrite app_nil_r. by apply Hrank.
  - unfold step_world. destruct (Qlt_le_dec 0 d); [|done].
    destruct Hfair. by split.
Qed.

Lemma reachable_invariants bt calls schedule :
  distinct_ids calls →
  conserved (run schedule (boot bt calls)) ∧ fair (run schedule (boot bt calls)).
Proof.
  intros Hd.
  apply (run_invariant (λ w, conserved w ∧ fair w)).
  - intros e w [H1 H2]. split; [by apply conserved_step|by apply fair_step].
  - split; [apply conserved_boot|by apply fair_boot].
Qed.

End Fair.

(** ** Fair queue: the stated properties *)

Section OrderFacts.

(** In a duplicate-free list, whatever follows [t] in a sublist follows it
    in the list. *)
Lemma sublist_head_before (t t' : Z) (rest R : list Z) (k k' : nat) :
  (t :: rest) `sublist_of` R → NoDup R → t' ∈ rest →
  R !! k = Some t → R !! k' = Some t' → (k < k')%nat.
Proof.
  intros Hsub Hnd Hin Hk Hk'.
  apply sublist_cons_l in Hsub as (R1 & R2 & -> & Hrest).
  assert (t' ∈ R2) as Hin2 by (by eapply elem_of_sublist).
  apply NoDup_app in Hnd as (Hnd1 & Hdisj & Hnd2).
  apply NoDup_cons in Hnd2 as [Hnot2 Hnd2].
  assert (k = length R1) as ->.
  { destruct (decide (k < length R1)%nat) as [Hlt|Hge].
    - rewrite lookup_app_l in Hk by done.
      exfalso. apply (Hdisj t); [by eapply list_elem_of_lookup_2|apply list_elem_of_here].
    - rewrite lookup_app_r in Hk by lia.
      destruct (k - length R1)%nat as [|m] eqn:Hm; [lia|].
      simpl in Hk. exfalso. apply Hnot2. by eapply list_elem_of_lookup_2. }
  destruct (decide (k' < length R1)%nat) as [Hlt|Hge].
  - rewrite lookup_app_l in Hk' by done.
    exfalso. apply (Hdisj t'); [by eapply list_elem_of_lookup_2|].
    by apply list_elem_of_further.
  - rewrite lookup_app_r in Hk' by lia.
    destruct (k' - length R1)%nat as [|m] eqn:Hm; [|lia].
    simpl in Hk'. simplify_eq. done.
Qed.

(** Positions of equal images under a duplicate-free [omap] coincide. *)
Lemma NoDup_omap_inj {A B} (f : A → option B) (l : list A) i j a b y :
  NoDup (omap f l) → l !! i = Some a → l !! j = Some b →
  f a = Some y → f b = Some y → i = j.
Proof.
  revert i j. induction l as [|z l IH]; intros i j Hnd Hi Hj Ha Hb; [done|].
  assert (∀ m e, l !! m = Some e → f e = Some y → y ∈ omap f l) as Hmem.
  { intros m e Hm He. apply list_elem_of_omap. exists e.
    split; [by eapply list_elem_of_lookup_2|done]. }
  simpl in Hnd. destruct i as [|i], j as [|j]; simpl in *; simplify_eq.
  - done.
  - rewrite Ha in Hnd. apply NoDup_cons in Hnd as [Hnot _].
    exfalso. apply Hnot. by eapply Hmem.
  - rewrite Hb in Hnd. apply NoDup_cons in Hnd as [Hnot _].
    exfalso. apply Hnot. by eapply Hmem.
  - f_equal. apply IH; try done.
    destruct (f z); [by apply NoDup_cons in Hnd as [_ ?]|done].
Qed.

End OrderFacts.

(** C5. Entering a waiting routine for an id that is already in the list
    leaves the shared state as it is: no duplicate entry, no change of
    position. An id that is not yet listed goes to the tail. Hence in every
    reachable world, whatever ids the routines carry, the list has no
    duplicates. *)
Theorem idempotent_registration :
  (∀ now s c,
     FairQueue.at_pc c = FairQueue.AtRegister →
     FairQueue.thread_id c ∈ FairQueue.otp_waiting_threads s →
     (FairQueue.step_call now s c).1.1 = s) ∧
  (∀ now s c,
     FairQueue.at_pc c = FairQueue.AtRegister →
     FairQueue.thread_id c ∉ FairQueue.otp_waiting_threads s →
     FairQueue.otp_waiting_threads (FairQueue.step_call now s c).1.1
     = FairQueue.otp_waiting_threads s ++ [FairQueue.thread_id c]) ∧
  (∀ bt calls schedule,
     NoDup (FairQueue.otp_waiting_threads
              (FairQueue.globals (FairQueue.run schedule (FairQueue.boot bt calls))))).
Proof.
  split; [|split].
  - intros now s c Hp Hin.
    unfold FairQueue.step_call, FairQueue.wait_for_otp_sync,
      FairQueue.wait_for_otp_from_api, FairQueue.register.
    rewrite Hp, bool_decide_eq_true_2 by done. by destruct (FairQueue.shape c).
  - intros now s c Hp Hin.
    unfold FairQueue.step_call, FairQueue.wait_for_otp_sync,
      FairQueue.wait_for_otp_from_api, FairQueue.register.
    rewrite Hp, bool_decide_eq_false_2 by done. by destruct (FairQueue.shape c).
  - intros bt calls schedule. apply QueueInv.cons_nodup, conserved_run.
Qed.

Lemma idempotent_registration_witness :
  (FairQueue.step_call 0
     {| FairQueue.otp_waiting_threads := [1; 2]; FairQueue.otp_queue := [];
        FairQueue.browser_threads := ∅ |}
     (FairQueue.enter FairQueue.Blocking 2 5)).1.1
  = {| FairQueue.otp_waiting_threads := [1; 2]; FairQueue.otp_queue := [];
       FairQueue.browser_threads := ∅ |}.
Proof.
  apply (proj1 idempotent_registration); [reflexivity|].
  simpl. apply list_elem_of_further, list_elem_of_here.
Defined.

(** C2. In every reachable world the delivered codes are exactly the popped
    codes followed by the queue, and the codes held by routines (in hand or
    returned) are, as a multiset, the popped codes. So the held codes form a
    sub-multiset of the delivered ones, and when the delivered codes are
    pairwise distinct no two routines hold the same code. *)
Theorem at_most_once_delivery bt calls schedule :
  let w := FairQueue.run schedule (FairQueue.boot bt calls) in
  FairQueue.delivered (FairQueue.log w)
  = QueueInv.codes (FairQueue.log w) ++ FairQueue.otp_queue (FairQueue.globals w) ∧
  omap FairQueue.held (FairQueue.pool w) ≡ₚ QueueInv.codes (FairQueue.log w) ∧
  omap FairQueue.held (FairQueue.pool w) ⊆+ FairQueue.delivered (FairQueue.log w) ∧
  (NoDup (FairQueue.delivered (FairQueue.log w)) →
   NoDup (omap FairQueue.held (FairQueue.pool w)) ∧
   ∀ i j ci cj x,
     FairQueue.pool w !! i = Some ci → FairQueue.pool w !! j = Some cj →
     FairQueue.held ci = Some x → FairQueue.held cj = Some x → i = j).
Proof.
  intros w. destruct (conserved_run bt calls schedule) as [_ Hfifo Hheld _].
  fold w in Hfifo, Hheld.
  assert (omap FairQueue.held (FairQueue.pool w)
          ⊆+ FairQueue.delivered (FairQueue.log w)) as Hsub.
  { rewrite Hfifo, Hheld. apply submseteq_inserts_r. done. }
  split; [done|]. split; [done|]. split; [done|].
  intros Hnd.
  assert (NoDup (omap FairQueue.held (FairQueue.pool w))) as Hnd'.
  { apply submseteq_Permutation in Hsub as [k Hk].
    rewrite Hk in Hnd. by apply NoDup_app in Hnd as [? _]. }
  split; [done|].
  intros i j ci cj x Hi Hj Hci Hcj.
  by eapply (NoDup_omap_inj FairQueue.held).
Qed.

(** C3. With pairwise distinct ids, a step that pops a code is a step of the
    routine whose id is the head of the list; every other id in the list
    registered after it. *)
Theorem no_priority_inversion bt calls schedule e t x :
  QueueInv.distinct_ids calls →
  let w := FairQueue.run schedule (FairQueue.boot bt calls) in
  FairQueue.log (FairQueue.step_world e w) = FairQueue.log w ++ [FairQueue.ObsPopped t x] →
  ∃ i c rest,
    e = FairQueue.Step i ∧ FairQueue.pool w !! i = Some c ∧
    FairQueue.thread_id c = t ∧
    FairQueue.otp_waiting_threads (FairQueue.globals w) = t :: rest ∧
    ∀ t' k k', t' ∈ rest →
      FairQueue.registered (FairQueue.log w) !! k = Some t →
      FairQueue.registered (FairQueue.log w) !! k' = Some t' →
      (k < k')%nat.
Proof.
  intros Hd w Hlog.
  destruct (reachable_invariants bt calls schedule Hd) as [Hcons Hfair].
  fold w in Hcons, Hfair.
  destruct e as [i|y|d].
  - destruct (FairQueue.pool w !! i) as [c|] eqn:Hc.
    + destruct (step_world_Step w i c Hc) as (s' & c' & o & Hstep & Hw').
      rewrite Hw' in Hlog. simpl in Hlog. apply app_inv_head in Hlog. subst o.
      apply step_call_transition in Hstep.
      inversion Hstep as [| | | |endt code rest0 Hp Hp' Hq Hq' Hl [Ht Hx]| |];
        subst.
      pose proof (QueueInv.fair_calls w Hfair i c Hc) as Hok.
      assert (head (FairQueue.otp_waiting_threads (FairQueue.globals w))
              = Some (FairQueue.thread_id c)) as Hhd
        by (apply (call_ok_head _ _ _ Hok); left; by rewrite Hp).
      apply head_Some_cons in Hhd as [rest Hrest].
      exists i, c, rest. repeat split; try done.
      intros t' k k' Hin Hk Hk'.
      apply (sublist_head_before (FairQueue.thread_id c) t' rest
               (FairQueue.registered (FairQueue.log w))); try done.
      * rewrite <- Hrest. apply (QueueInv.cons_order w Hcons).
      * apply (QueueInv.fair_once w Hfair).
    + rewrite step_world_Step_None in Hlog by done.
      apply (f_equal length) in Hlog. rewrite length_app in Hlog. simpl in Hlog. lia.
  - simpl in Hlog. apply app_inv_head in Hlog. done.
  - unfold FairQueue.step_world in Hlog.
    destruct (Qlt_le_dec 0 d); simpl in Hlog;
      apply (f_equal length) in Hlog; rewrite length_app in Hlog; simpl in Hlog; lia.
Qed.


(** *** The specification's first scenario, run *)

Section ScenarioFacts.
Import FairQueue QueueInv Scenario.

Lemma two_workers_distinct : distinct_ids two_workers.
Proof.
  unfold distinct_ids; simpl. apply NoDup_cons. split; [|apply NoDup_singleton].
  intros Hin%list_elem_of_singleton. discriminate.
Qed.

Lemma one_second_distinct : distinct_ids one_second.
Proof.
  unfold distinct_ids; simpl. apply NoDup_cons. split; [|apply NoDup_singleton].
  intros Hin%list_elem_of_singleton. discriminate.
Qed.


End ScenarioFacts.


Lemma at_most_once_delivery_witness :
  NoDup (omap FairQueue.held
           (FairQueue.pool
              (FairQueue.run Scenario.in_turn (FairQueue.boot ∅ Scenario.two_workers)))).
Proof.
  refine (proj1 (proj2 (proj2 (proj2
            (at_most_once_delivery ∅ Scenario.two_workers Scenario.in_turn))) _)).
  vm_compute. apply NoDup_cons. split; [|apply NoDup_singleton].
  intros Hin%list_elem_of_singleton. discriminate.
Defined.

Lemma no_priority_inversion_witness :
  ∃ i c rest,
    FairQueue.Step 0 = FairQueue.Step i ∧
    FairQueue.pool (FairQueue.run Scenario.both_register
                      (FairQueue.boot ∅ Scenario.two_workers)) !! i = Some c ∧
    FairQueue.thread_id c = 1 ∧
    FairQueue.otp_waiting_threads
      (FairQueue.globals (FairQueue.run Scenario.both_register
                            (FairQueue.boot ∅ Scenario.two_workers))) = 1 :: rest ∧
    ∀ t' k k', t' ∈ rest →
      FairQueue.registered
        (FairQueue.log (FairQueue.run Scenario.both_register
                          (FairQueue.boot ∅ Scenario.two_workers))) !! k = Some 1 →
      FairQueue.registered
        (FairQueue.log (FairQueue.run Scenario.both_register
                          (FairQueue.boot ∅ Scenario.two_workers))) !! k' = Some t' →
      (k < k')%nat.
Proof.
  apply (no_priority_inversion ∅ Scenario.two_workers Scenario.both_register
           (FairQueue.Step 0) 1 "111111" two_workers_distinct).
  vm_compute. reflexivity.
Defined.

(** ** Fair queue: timeouts *)

Section TimeoutFacts.
Import FairQueue QueueInv Scenario.

Lemma step_call_timeout now s c :
  at_pc c = AtTimeout →
  step_call now s c = (leave s c, goto (Returned None) c, []).
Proof.
  intros Hp. unfold step_call, wait_for_otp_sync, wait_for_otp_from_api.
  rewrite Hp. by destruct (shape c).
Qed.

Lemma step_call_remove now s c x :
  at_pc c = AtRemove x →
  step_call now s c = (leave s c, goto (Returned (Some x)) c, []).
Proof.
  intros Hp. unfold step_call, wait_for_otp_sync, wait_for_otp_from_api.
  rewrite Hp. by destruct (shape c).
Qed.

Lemma step_call_get now s c endtime x rest :
  at_pc c = AtGet endtime → otp_queue s = x :: rest →
  step_call now s c
  = (with_queue rest s, goto (AtRemove x) c, [ObsPopped (thread_id c) x]).
Proof.
  intros Hp Hq. unfold step_call, wait_for_otp_sync, wait_for_otp_from_api.
  rewrite Hp, Hq. by destruct (shape c).
Qed.

Lemma step_call_check now s c :
  at_pc c = AtCheck → my_turn s c = true →
  ∃ endtime, step_call now s c = (s, goto (AtGet endtime) c, []).
Proof.
  intros Hp Ht. unfold step_call, wait_for_otp_sync, wait_for_otp_from_api.
  rewrite Hp, Ht. destruct (shape c); by eexists.
Qed.

Lemma step_world_Step_eq w i c s' c' o :
  pool w !! i = Some c → step_call (clock w) (globals w) c = (s', c', o) →
  step_world (Step i) w
  = {| globals := s'; clock := clock w; pool := <[i := c']> (pool w);
       log := log w ++ o |}.
Proof. intros Hc Hs. unfold step_world. by rewrite Hc, Hs. Qed.

(** The routine at the head, about to check, with a code in the queue,
    has that code after its next three steps. *)
Lemma head_is_served w i c x rest :
  pool w !! i = Some c → at_pc c = AtCheck →
  head (otp_waiting_threads (globals w)) = Some (thread_id c) →
  otp_queue (globals w) = x :: rest →
  ∃ c', pool (run [Step i; Step i; Step i] w) !! i = Some c' ∧
        at_pc c' = Returned (Some x) ∧
        otp_queue (globals (run [Step i; Step i; Step i] w)) = rest.
Proof.
  intros Hc Hp Hhd Hq.
  assert (i < length (pool w))%nat as Hlt by (by eapply lookup_lt_Some).
  assert (my_turn (globals w) c = true) as Ht
    by (apply my_turn_head; [done|by rewrite Hq]).
  destruct (step_call_check (clock w) (globals w) c Hp Ht) as [endtime H1].
  change (run [Step i; Step i; Step i] w)
    with (step_world (Step i) (step_world (Step i) (step_world (Step i) w))).
  rewrite (step_world_Step_eq w i c _ _ _ Hc H1).
  set (w1 := {| globals := globals w; clock := clock w;
                pool := <[i := goto (AtGet endtime) c]> (pool w);
                log := log w ++ [] |}).
  assert (pool w1 !! i = Some (goto (AtGet endtime) c)) as Hc1
    by (by apply list_lookup_insert_eq).
  rewrite (step_world_Step_eq w1 i _ _ _ _ Hc1
             (step_call_get (clock w1) (globals w1) (goto (AtGet endtime) c)
                endtime x rest eq_refl Hq)).
  set (w2 := {| globals := with_queue rest (globals w1); clock := clock w1;
                pool := <[i := goto (AtRemove x) (goto (AtGet endtime) c)]> (pool w1);
                log := _ |}).
  assert (pool w2 !! i = Some (goto (AtRemove x) (goto (AtGet endtime) c))) as Hc2
    by (apply list_lookup_insert_eq; simpl; by rewrite length_insert).
  rewrite (step_world_Step_eq w2 i _ _ _ _ Hc2
             (step_call_remove (clock w2) (globals w2)
                (goto (AtRemove x) (goto (AtGet endtime) c)) x eq_refl)).
  simpl. eexists. split; [|split].
  - apply list_lookup_insert_eq. by rewrite !length_insert.
  - reflexivity.
  - by rewrite leave_queue.
Qed.

End TimeoutFacts.

(** C4. When the time is up the loop of either routine ends; the clean-up
    step then removes the routine's own id from the list, touches neither
    the queue nor the log, and the routine returns [None]. In a reachable
    world the id is gone afterwards, every other id keeps its place, and
    the id that stood right behind a departing head becomes the head. With
    distinct ids a routine that returned [None] never popped a code. A head
    at its check with a code in the queue is served by its next three
    steps. *)
Theorem timeout_handling :
  (∀ now s c,
     FairQueue.shape c = FairQueue.Blocking → FairQueue.at_pc c = FairQueue.AtWhile →
     (FairQueue.timeout c <= now - FairQueue.start_time c)%Q →
     FairQueue.step_call now s c = (s, FairQueue.goto FairQueue.AtTimeout c, [])) ∧
  (∀ now s c,
     FairQueue.shape c = FairQueue.NonBlocking →
     FairQueue.at_pc c = FairQueue.AtRecompute →
     (FairQueue.timeout c - (now - FairQueue.start_time c) <= 0)%Q →
     ∃ c', FairQueue.step_call now s c = (s, c', []) ∧
           FairQueue.at_pc c' = FairQueue.AtTimeout ∧
           FairQueue.thread_id c' = FairQueue.thread_id c) ∧
  (∀ now s c,
     FairQueue.at_pc c = FairQueue.AtTimeout →
     ∃ s', FairQueue.step_call now s c
           = (s', FairQueue.goto (FairQueue.Returned None) c, []) ∧
       FairQueue.otp_waiting_threads s'
       = list_remove_first (FairQueue.thread_id c) (FairQueue.otp_waiting_threads s) ∧
       FairQueue.otp_queue s' = FairQueue.otp_queue s ∧
       FairQueue.browser_threads s' = FairQueue.browser_threads s) ∧
  (∀ bt calls schedule i c,
     let w := FairQueue.run schedule (FairQueue.boot bt calls) in
     FairQueue.pool w !! i = Some c → FairQueue.at_pc c = FairQueue.AtTimeout →
     let w' := FairQueue.step_world (FairQueue.Step i) w in
     (FairQueue.thread_id c ∉ FairQueue.otp_waiting_threads (FairQueue.globals w')) ∧
     (∀ t, t ≠ FairQueue.thread_id c →
        (t ∈ FairQueue.otp_waiting_threads (FairQueue.globals w') ↔
         t ∈ FairQueue.otp_waiting_threads (FairQueue.globals w))) ∧
     (∀ t rest,
        FairQueue.otp_waiting_threads (FairQueue.globals w)
        = FairQueue.thread_id c :: t :: rest →
        FairQueue.otp_waiting_threads (FairQueue.globals w') = t :: rest) ∧
     FairQueue.otp_queue (FairQueue.globals w') = FairQueue.otp_queue (FairQueue.globals w) ∧
     FairQueue.log w' = FairQueue.log w ∧
     FairQueue.result_of <$> FairQueue.pool w' !! i = Some (Some None)) ∧
  (∀ bt calls schedule i c x,
     QueueInv.distinct_ids calls →
     let w := FairQueue.run schedule (FairQueue.boot bt calls) in
     FairQueue.pool w !! i = Some c → FairQueue.at_pc c = FairQueue.Returned None →
     (FairQueue.thread_id c, x) ∉ FairQueue.popped (FairQueue.log w)) ∧
  (∀ w i c x rest,
     FairQueue.pool w !! i = Some c → FairQueue.at_pc c = FairQueue.AtCheck →
     head (FairQueue.otp_waiting_threads (FairQueue.globals w))
     = Some (FairQueue.thread_id c) →
     FairQueue.otp_queue (FairQueue.globals w) = x :: rest →
     ∃ c', FairQueue.pool
             (FairQueue.run [FairQueue.Step i; FairQueue.Step i; FairQueue.Step i] w)
           !! i = Some c' ∧
           FairQueue.at_pc c' = FairQueue.Returned (Some x)).
Proof.
  split; [|split; [|split; [|split; [|split]]]].
  - intros now s c Hs Hp Hle.
    unfold FairQueue.step_call, FairQueue.wait_for_otp_sync. rewrite Hs, Hp.
    destruct (Qlt_le_dec _ _) as [Hlt|_]; [lra|done].
  - intros now s c Hs Hp Hle.
    unfold FairQueue.step_call, FairQueue.wait_for_otp_from_api. rewrite Hs, Hp.
    destruct (Qlt_le_dec _ _) as [Hlt|_]; [lra|]. by eexists.
  - intros now s c Hp. exists (FairQueue.leave s c).
    split; [by apply step_call_timeout|].
    split; [apply leave_waiting|]. split; [apply leave_queue|].
    unfold FairQueue.leave. by case_bool_decide.
  - intros bt calls schedule i c w Hc Hp w'.
    pose proof (QueueInv.cons_nodup w (conserved_run bt calls schedule)) as Hnd.
    assert (i < length (FairQueue.pool w))%nat as Hlt by (by eapply lookup_lt_Some).
    unfold w'.
    rewrite (step_world_Step_eq w i c _ _ _ Hc (step_call_timeout _ _ _ Hp)).
    simpl. rewrite leave_waiting, leave_queue, app_nil_r.
    split; [by apply NoDup_list_remove_first|].
    split; [intros t Ht; by apply elem_of_list_remove_first_ne|].
    split; [intros t rest ->; apply list_remove_first_head|].
    split; [done|]. split; [done|].
    by rewrite list_lookup_insert_eq.
  - intros bt calls schedule i c x Hd w Hc Hp Hin.
    destruct (reachable_invariants bt calls schedule Hd) as [_ Hfair].
    apply (QueueInv.fair_held _ Hfair i c x Hc) in Hin.
    unfold FairQueue.held in Hin. by rewrite Hp in Hin.
  - intros w i c x rest Hc Hp Hhd Hq.
    destruct (head_is_served w i c x rest Hc Hp Hhd Hq) as (c' & H1 & H2 & _).
    by exists c'.
Qed.

Lemma timeout_handling_witness :
  FairQueue.otp_waiting_threads
    (FairQueue.globals
       (FairQueue.step_world (FairQueue.Step 0)
          (FairQueue.run Scenario.first_gives_up
             (FairQueue.boot ∅ Scenario.one_second)))) = [2].
Proof.
  refine (proj1 (proj2 (proj2
            (proj1 (proj2 (proj2 (proj2 timeout_handling)))
               ∅ Scenario.one_second Scenario.first_gives_up 0%nat
               {| FairQueue.shape := FairQueue.Blocking; FairQueue.thread_id := 1;
                  FairQueue.timeout := 1; FairQueue.start_time := 0;
                  FairQueue.remaining_timeout := 0;
                  FairQueue.at_pc := FairQueue.AtTimeout |} _ _))) 2 [] _).
  - vm_compute. reflexivity.
  - reflexivity.
  - vm_compute. reflexivity.
Defined.

(** ** Fair queue: the two variants side by side *)

Section Twins.
Import FairQueue QueueInv Scenario.
Local Open Scope Q_scope.

Lemma start_time_step now s c s' c' o :
  step_call now s c = (s', c', o) → start_time c <= now → start_time c' <= now.
Proof.
  unfold step_call, wait_for_otp_sync, wait_for_otp_from_api,
    register, mark_waiting.
  intros H Hle.
  destruct (shape c) eqn:Hs, (at_pc c) eqn:Hp;
    repeat (match type of H with
            | context [if ?b then _ else _] => destruct b
            | context [match otp_queue s with _ => _ end] => destruct (otp_queue s)
            | context [match Registry.set_status ?a ?b ?d with _ => _ end] =>
                destruct (Registry.set_status a b d)
            end);
    simplify_eq; simpl; first [done | lra].
Qed.

Lemma my_turn_twin s c1 c2 : thread_id c1 = thread_id c2 → my_turn s c1 = my_turn s c2.
Proof. unfold my_turn. by intros ->. Qed.

Lemma leave_twin s c1 c2 : thread_id c1 = thread_id c2 → leave s c1 = leave s c2.
Proof. unfold leave. by intros ->. Qed.

Lemma twin_refl c : shape c = NonBlocking → twin c c.
Proof. intros Hs. unfold twin. by rewrite Hs. Qed.

Lemma twin_step now s c1 c2 s1 c1' o1 s2 c2' o2 :
  twin c1 c2 →
  call_ok (otp_waiting_threads s) (otp_queue s) c2 →
  (at_pc c2 = AtWhile → 0 < timeout c2 → now - start_time c2 < timeout c2) →
  start_time c2 <= now →
  step_call now s c1 = (s1, c1', o1) →
  step_call now s c2 = (s2, c2', o2) →
  s1 = s2 ∧ o1 = o2 ∧ twin c1' c2'.
Proof.
  intros (Ht & Hto & Hst & Hs2 & Hm) Hok Hprompt Hclock H1 H2.
  destruct (shape c1) eqn:Hs1.
  2:{ subst c2. rewrite H1 in H2. simplify_eq. split; [done|]. split; [done|].
      apply twin_refl. by destruct (step_call_args _ _ _ _ _ _ H1) as (-> & _). }
  destruct Hm as [Hpc Hrem].
  unfold step_call in H1, H2. rewrite Hs1 in H1. rewrite Hs2 in H2.
  unfold wait_for_otp_sync in H1. unfold wait_for_otp_from_api in H2.
  unfold twin, call_ok in *.
  destruct (at_pc c1) eqn:Hp1; destruct (at_pc c2) eqn:Hp2;
    simpl in Hpc; try done; simplify_eq.
  - (* AtRegister *)
    unfold register in *. rewrite Ht in H1.
    case_bool_decide; simplify_eq; simpl; rewrite ?Ht, Hs1; done.
  - (* AtStatus *)
    unfold mark_waiting in *. rewrite Ht in H1.
    destruct (Registry.set_status _ _ _); simplify_eq; simpl; rewrite Hs1; done.
  - (* AtStart *)
    simpl. rewrite Hs1. done.
  - (* AtWhile, first test of the non-blocking routine *)
    rewrite Hrem in H2 by done. rewrite Hto, Hst in H1.
    destruct (Qlt_le_dec (now - start_time c2) (timeout c2)) as [Hlt|Hge];
      destruct (Qlt_le_dec 0 (timeout c2)) as [Hpos|Hneg];
      simplify_eq; simpl; rewrite ?Hs1; try done.
    + lra.
    + specialize (Hprompt eq_refl Hpos). lra.
  - (* AtWhile against AtRecompute *)
    rewrite Hto, Hst in H1.
    destruct (Qlt_le_dec (now - start_time c2) (timeout c2)) as [Hlt|Hge];
      destruct (Qlt_le_dec 0 (timeout c2 - (now - start_time c2))) as [Hpos|Hneg];
      simplify_eq; simpl; rewrite ?Hs1; try done; lra.
  - (* AtCheck *)
    rewrite (my_turn_twin s c1 c2 Ht) in H1.
    destruct (my_turn s c2); simplify_eq; simpl; rewrite Hs1; done.
  - (* AtGet: the queue is not empty *)
    destruct Hok as [_ Hq]. destruct (otp_queue s) as [|x rest]; [done|].
    simplify_eq; simpl. rewrite Ht, Hs1. done.
  - (* AtRemove *)
    rewrite (leave_twin s c1 c2 Ht). simpl. rewrite Hs1. done.
  - (* AtSleep *)
    destruct (Qlt_le_dec now _); simplify_eq; simpl; rewrite ?Hs1, ?Hp1, ?Hp2; done.
  - (* AtTimeout *)
    rewrite (leave_twin s c1 c2 Ht). simpl. rewrite Hs1. done.
  - (* Returned *)
    rewrite Hs1, Hp1, Hp2. done.
Qed.

Lemma twin_result c1 c2 : twin c1 c2 → result_of c1 = result_of c2.
Proof.
  intros (_ & _ & _ & _ & Hm). destruct (shape c1); [|by subst].
  destruct Hm as [Hpc _]. unfold result_of.
  destruct (at_pc c1), (at_pc c2); simpl in Hpc; by simplify_eq.
Qed.

Lemma clock_ok_step e w : clock_ok w → clock_ok (step_world e w).
Proof.
  unfold clock_ok. intros Hok. destruct e as [i|x|d].
  - destruct (pool w !! i) as [c|] eqn:Hc;
      [|by rewrite step_world_Step_None].
    destruct (step_world_Step w i c Hc) as (s' & c' & o & Hstep & ->). simpl.
    apply Forall_insert; [done|].
    apply (start_time_step _ _ _ _ _ _ Hstep).
    by apply (proj1 (Forall_lookup _ _) Hok i c).
  - done.
  - unfold step_world. destruct (Qlt_le_dec 0 d) as [Hd|_]; [|done]. simpl.
    eapply Forall_impl; [exact Hok|]. intros c Hc. simpl in *. lra.
Qed.

Lemma twin_world_step e w1 w2 :
  twin_world w1 w2 → fair w2 → clock_ok w2 → prompt_step e w2 →
  twin_world (step_world e w1) (step_world e w2).
Proof.
  intros (Hg & Hc & Hl & Hp) Hfair Hclock Hprompt. destruct e as [i|x|d].
  - destruct (pool w2 !! i) as [c2|] eqn:Hc2.
    + destruct (Forall2_lookup_r _ _ _ _ _ Hp Hc2) as (c1 & Hc1 & Htw).
      destruct (step_world_Step w1 i c1 Hc1) as (s1 & c1' & o1 & H1 & ->).
      destruct (step_world_Step w2 i c2 Hc2) as (s2 & c2' & o2 & H2 & ->).
      rewrite Hg, Hc in H1.
      simpl in Hprompt. rewrite Hc2 in Hprompt.
      destruct (twin_step _ _ _ _ _ _ _ _ _ _ Htw
                  (fair_calls w2 Hfair i c2 Hc2) Hprompt
                  (proj1 (Forall_lookup _ _) Hclock i c2 Hc2) H1 H2)
        as (-> & -> & Htw').
      split; [done|]. split; [done|]. split; simpl; [by rewrite Hl|].
      by apply Forall2_insert.
    + assert (pool w1 !! i = None) as Hc1.
      { apply lookup_ge_None. apply lookup_ge_None in Hc2.
        by rewrite (Forall2_length _ _ _ Hp). }
      rewrite !step_world_Step_None by done. by split.
  - split; simpl; [by rewrite Hg|]. split; [done|]. split; [by rewrite Hl|done].
  - unfold step_world. destruct (Qlt_le_dec 0 d); simpl; [|by split].
    split; [done|]. split; [by rewrite Hc|]. by split.
Qed.

Lemma twin_run schedule : ∀ w1 w2,
  twin_world w1 w2 → conserved w2 → fair w2 → clock_ok w2 → prompt schedule w2 →
  twin_world (run schedule w1) (run schedule w2).
Proof.
  induction schedule as [|e schedule IH]; intros w1 w2 Htw Hcons Hfair Hclock Hpr;
    [done|].
  destruct Hpr as [Hstep Hrest]. rewrite !run_cons. apply IH.
  - by apply twin_world_step.
  - by apply conserved_step.
  - by apply fair_step.
  - by apply clock_ok_step.
  - done.
Qed.

Lemma twin_boot bt calls :
  twin_world (boot bt calls) (boot bt (reshape NonBlocking <$> calls)).
Proof.
  split; [done|]. split; [done|]. split; [done|]. simpl.
  induction calls as [|c calls IH]; [constructor|]. simpl.
  constructor; [|done]. unfold twin, fresh, enter; simpl.
  destruct (shape c); done.
Qed.

Lemma clock_ok_boot bt calls : clock_ok (boot bt calls).
Proof.
  unfold clock_ok; simpl. apply Forall_fmap, Forall_forall.
  intros c _. simpl. lra.
Qed.

Lemma distinct_ids_reshape v calls :
  distinct_ids calls → distinct_ids (reshape v <$> calls).
Proof. unfold distinct_ids. by rewrite <- list_fmap_compose. Qed.

Lemma boot_same_inputs bt calls1 calls2 :
  same_inputs calls1 calls2 →
  boot bt (reshape NonBlocking <$> calls1) = boot bt (reshape NonBlocking <$> calls2).
Proof.
  intros Hs.
  assert (fresh <$> (reshape NonBlocking <$> calls1)
          = fresh <$> (reshape NonBlocking <$> calls2)) as Heq.
  { induction Hs as [|a b l1 l2 [Ht Hto] _ IH]; [done|].
    rewrite !fmap_cons, IH. f_equal.
    unfold fresh, reshape, enter; simpl. by rewrite Ht, Hto. }
  unfold boot. by rewrite Heq.
Qed.

Lemma twin_results (l1 l2 : list call) :
  Forall2 twin l1 l2 → result_of <$> l1 = result_of <$> l2.
Proof.
  induction 1 as [|c1 c2 l1 l2 Htw _ IH]; [done|].
  by rewrite !fmap_cons, IH, (twin_result c1 c2 Htw).
Qed.

(** Any pool, run against its all-non-blocking twin. *)
Lemma variants_agree_with_twin bt calls schedule :
  distinct_ids calls →
  prompt schedule (boot bt (reshape NonBlocking <$> calls)) →
  twin_world (run schedule (boot bt calls))
             (run schedule (boot bt (reshape NonBlocking <$> calls))).
Proof.
  intros Hd Hpr. apply twin_run; try done.
  - apply twin_boot.
  - apply conserved_boot.
  - apply fair_boot. by apply distinct_ids_reshape.
  - apply clock_ok_boot.
Qed.

End Twins.

Section TwinScenario.
Import FairQueue QueueInv Scenario.

Lemma two_through_distinct v : distinct_ids (two_through v).
Proof.
  unfold distinct_ids; simpl. apply NoDup_cons. split; [|apply NoDup_singleton].
  intros Hin%list_elem_of_singleton. discriminate.
Qed.

Lemma two_through_same_inputs : same_inputs (two_through Blocking) (two_through NonBlocking).
Proof. repeat constructor. Qed.

Lemma in_turn_prompt :
  prompt in_turn (boot ∅ (reshape NonBlocking <$> two_through Blocking)).
Proof.
  vm_compute. repeat split; try (intros; discriminate); try (intros; reflexivity).
Qed.

Lemma same_inputs_ids calls1 calls2 :
  same_inputs calls1 calls2 → thread_id <$> calls1 = thread_id <$> calls2.
Proof.
  induction 1 as [|a b l1 l2 [Ht _] _ IH]; [done|].
  by rewrite !fmap_cons, IH, Ht.
Qed.

End TwinScenario.

(** C6, as the code has it. Two pools entered with the same pairwise
    distinct ids and the same timeouts, each routine through either
    variant, and run under the same schedule of steps, deliveries and clock
    ticks, reach the same shared state, log the same registrations,
    deliveries and pops, and return the same results, and both satisfy the
    ordering and at-most-once invariants, provided that every routine with a
    positive timeout makes its first loop test less than [timeout] seconds
    after it read [start_time]. *)
Theorem variants_agree bt calls1 calls2 schedule :
  QueueInv.distinct_ids calls1 → QueueInv.same_inputs calls1 calls2 →
  QueueInv.prompt schedule
    (FairQueue.boot bt (FairQueue.reshape FairQueue.NonBlocking <$> calls1)) →
  let w1 := FairQueue.run schedule (FairQueue.boot bt calls1) in
  let w2 := FairQueue.run schedule (FairQueue.boot bt calls2) in
  FairQueue.globals w1 = FairQueue.globals w2 ∧
  FairQueue.clock w1 = FairQueue.clock w2 ∧
  FairQueue.log w1 = FairQueue.log w2 ∧
  FairQueue.result_of <$> FairQueue.pool w1 = FairQueue.result_of <$> FairQueue.pool w2 ∧
  (QueueInv.conserved w1 ∧ QueueInv.fair w1) ∧
  (QueueInv.conserved w2 ∧ QueueInv.fair w2).
Proof.
  intros Hd Hsame Hpr w1 w2.
  assert (QueueInv.distinct_ids calls2) as Hd2
    by (unfold QueueInv.distinct_ids in *; by rewrite <- (same_inputs_ids calls1 calls2)).
  pose proof (variants_agree_with_twin bt calls1 schedule Hd Hpr) as (Hg1 & Hc1 & Hl1 & Hp1).
  rewrite (boot_same_inputs bt calls1 calls2 Hsame) in Hpr, Hg1, Hc1, Hl1, Hp1.
  pose proof (variants_agree_with_twin bt calls2 schedule Hd2 Hpr) as (Hg2 & Hc2 & Hl2 & Hp2).
  fold w1 in Hg1, Hc1, Hl1, Hp1. fold w2 in Hg2, Hc2, Hl2, Hp2.
  split; [congruence|]. split; [congruence|]. split; [congruence|].
  split; [by rewrite (twin_results _ _ Hp1), (twin_results _ _ Hp2)|].
  split; by apply reachable_invariants.
Qed.

Lemma variants_agree_witness :
  FairQueue.result_of <$>
    FairQueue.pool (FairQueue.run Scenario.in_turn
                      (FairQueue.boot ∅ (Scenario.two_through FairQueue.Blocking)))
  = FairQueue.result_of <$>
    FairQueue.pool (FairQueue.run Scenario.in_turn
                      (FairQueue.boot ∅ (Scenario.two_through FairQueue.NonBlocking))).
Proof.
  exact (proj1 (proj2 (proj2 (proj2
           (variants_agree ∅ (Scenario.two_through FairQueue.Blocking)
              (Scenario.two_through FairQueue.NonBlocking) Scenario.in_turn
              (two_through_distinct FairQueue.Blocking)
              two_through_same_inputs in_turn_prompt))))).
Defined.

(** C6 as stated fails: same id, same timeout of 1 s, same schedule with the
    code queued before either routine polls; one second passes between the
    reading of [start_time] and the first loop test. The blocking routine
    returns [None] with the code left in the queue, the non-blocking one
    returns the code. *)
Lemma variants_disagree_after_stall :
  FairQueue.result_of <$>
    FairQueue.pool (FairQueue.run Scenario.stalled
                      (FairQueue.boot ∅ (Scenario.late_first_test FairQueue.Blocking)))
  = [Some None] ∧
  FairQueue.result_of <$>
    FairQueue.pool (FairQueue.run Scenario.stalled
                      (FairQueue.boot ∅ (Scenario.late_first_test FairQueue.NonBlocking)))
  = [Some (Some "111111")] ∧
  FairQueue.otp_queue
    (FairQueue.globals (FairQueue.run Scenario.stalled
                          (FairQueue.boot ∅ (Scenario.late_first_test FairQueue.Blocking))))
  = ["111111"].
Proof. split; [|split]; vm_compute; reflexivity. Qed.

(** *** The specification's two scenarios, run *)

Section ScenarioRuns.
Import FairQueue QueueInv Scenario.

(** W1 then W2 register; "111111" goes to W1, "222222" to W2. *)
Example scenario_in_turn :
  let w := run in_turn (boot ∅ two_workers) in
  result_of <$> pool w = [Some (Some "111111"); Some (Some "222222")] ∧
  otp_waiting_threads (globals w) = [] ∧ otp_queue (globals w) = [].
Proof. vm_compute. done. Qed.

(** While W1 is in the list the code is not W2's to take. *)
Example scenario_head_first :
  let w := run first_served (boot ∅ two_workers) in
  result_of <$> pool w = [Some (Some "111111"); None] ∧
  otp_waiting_threads (globals w) = [2].
Proof. vm_compute. done. Qed.

(** W1 times out after 1 s; the code delivered at 1.1 s goes to W2. *)
Example scenario_second_served :
  let w := run second_served (boot ∅ one_second) in
  result_of <$> pool w = [Some None; Some (Some "333333")] ∧
  log w = [ObsRegistered 1; ObsRegistered 2; ObsDelivered "333333";
           ObsPopped 2 "333333"].
Proof. vm_compute. done. Qed.

End ScenarioRuns.


(** * Further properties of the code *)

(** ** Fair queue *)

Section QueueMoreFacts.
Import FairQueue QueueInv QueueMore Scenario.
Local Open Scope Q_scope.

Lemma patient_later now later c : patient now c → now <= later → patient later c.
Proof.
  intros (H1 & H2 & H3) Hle. split; [lra|]. split; [done|].
  intros Hp. specialize (H3 Hp). lra.
Qed.

Lemma patient_step now s c s' c' o :
  step_call now s c = (s', c', o) → patient now c → patient now c'.
Proof.
  unfold step_call, wait_for_otp_sync, wait_for_otp_from_api,
    register, mark_waiting, patient.
  intros H (H1 & H2 & H3).
  destruct (shape c) eqn:Hs, (at_pc c) eqn:Hp;
    repeat (match type of H with
            | context [if ?b then _ else _] => destruct b
            | context [match otp_queue s with _ => _ end] => destruct (otp_queue s)
            | context [match Registry.set_status ?a ?b ?d with _ => _ end] =>
                destruct (Registry.set_status a b d)
            end);
    simplify_eq; simpl; rewrite ?Hs, ?Hp;
    (split; [first [done | lra]|]);
    (split; [first [done | by intros; discriminate]|]);
    first [ exact H3
          | by (intros [?|?]; discriminate)
          | (intros _; lra)
          | (intros _; apply H3; by left)
          | (intros _; rewrite <- (H2 eq_refl eq_refl); lra) ].
Qed.

Lemma patient_world_step e w :
  Forall (patient (clock w)) (pool w) →
  Forall (patient (clock (step_world e w))) (pool (step_world e w)).
Proof.
  intros Hok. destruct e as [i|x|d].
  - destruct (pool w !! i) as [c|] eqn:Hc;
      [|by rewrite step_world_Step_None].
    destruct (step_world_Step w i c Hc) as (s' & c' & o & Hstep & ->). simpl.
    apply Forall_insert; [done|].
    apply (patient_step _ _ _ _ _ _ Hstep).
    by apply (proj1 (Forall_lookup _ _) Hok i c).
  - done.
  - unfold step_world. destruct (Qlt_le_dec 0 d) as [Hd|_]; [|done]. simpl.
    eapply Forall_impl; [exact Hok|]. intros c Hc.
    apply (patient_later (clock w)); [done|lra].
Qed.

Lemma patient_run bt calls schedule :
  let w := run schedule (boot bt calls) in Forall (patient (clock w)) (pool w).
Proof.
  apply (run_invariant (λ w, Forall (patient (clock w)) (pool w))).
  - intros e w. apply patient_world_step.
  - simpl. apply Forall_fmap, Forall_forall. intros c _.
    unfold patient; simpl. split; [lra|]. split; [done|]. by intros [?|?].
Qed.

Lemma arguments_step e w : arguments <$> pool (step_world e w) = arguments <$> pool w.
Proof.
  destruct e as [i|x|d]; [|done|].
  - destruct (pool w !! i) as [c|] eqn:Hc;
      [|by rewrite step_world_Step_None].
    destruct (step_world_Step w i c Hc) as (s' & c' & o & Hstep & ->). simpl.
    destruct (step_call_args _ _ _ _ _ _ Hstep) as (Ha & Hb & Hd).
    rewrite list_fmap_insert. apply list_insert_id.
    rewrite list_lookup_fmap, Hc. simpl. unfold arguments. by rewrite Ha, Hb, Hd.
  - unfold step_world. by destruct (Qlt_le_dec 0 d).
Qed.

Lemma arguments_run bt calls schedule :
  arguments <$> pool (run schedule (boot bt calls)) = arguments <$> calls.
Proof.
  apply (run_invariant (λ w, arguments <$> pool w = arguments <$> calls)).
  - intros e w Hw. by rewrite arguments_step.
  - simpl. rewrite <- list_fmap_compose. by apply list_fmap_ext.
Qed.

Lemma listed_after_transition s c s' c' o t :
  NoDup (otp_waiting_threads s) → transition s c s' c' o →
  t ∈ otp_waiting_threads s' →
  (t = thread_id c ∧ active (at_pc c')) ∨
  (t ≠ thread_id c ∧ t ∈ otp_waiting_threads s) ∨
  (c' = c ∧ t ∈ otp_waiting_threads s).
Proof.
  intros Hnd Htr Hin.
  assert (active (at_pc c') → t ∈ otp_waiting_threads s ∨ t = thread_id c →
          (t = thread_id c ∧ active (at_pc c')) ∨
          (t ≠ thread_id c ∧ t ∈ otp_waiting_threads s) ∨
          (c' = c ∧ t ∈ otp_waiting_threads s)) as Hcase.
  { intros Ha [Ht| ->]; [|by left].
    destruct (decide (t = thread_id c)) as [->|Hne]; [by left|right; by left]. }
  transition_cases Htr.
  - apply Hcase; [by rewrite Hp'|].
    rewrite Hl, elem_of_app, list_elem_of_singleton in Hin. done.
  - apply Hcase; [by rewrite Hp'|]. rewrite Hl in Hin. by left.
  - apply Hcase; [|rewrite Hl in Hin; by left].
    destruct Hp' as [Hp'|Hp']; [by destruct (at_pc c')|]. rewrite Hp'.
    destruct Hp as [[Hp _]|[Hp _]]; by destruct (at_pc c).
  - apply Hcase; [by rewrite Hp'|]. rewrite Hl in Hin. by left.
  - apply Hcase; [by rewrite Hp'|]. rewrite Hl in Hin. by left.
  - right; left. rewrite Hl in Hin.
    destruct (NoDup_list_remove_first (thread_id c) _ Hnd) as [_ Hnot].
    assert (t ≠ thread_id c) as Hne by (by intros ->).
    split; [done|]. by apply (elem_of_list_remove_first_ne (thread_id c) t).
  - right; right. done.
Qed.

Lemma listed_active_step e w :
  conserved w → listed_active w → listed_active (step_world e w).
Proof.
  intros Hcons Hla. destruct e as [i|x|d].
  - destruct (pool w !! i) as [c|] eqn:Hc;
      [|by rewrite step_world_Step_None].
    destruct (step_world_Step w i c Hc) as (s' & c' & o & Hstep & ->).
    pose proof (step_call_args _ _ _ _ _ _ Hstep) as (_ & Hargs & _).
    apply step_call_transition in Hstep.
    assert (i < length (pool w))%nat as Hlt by (by eapply lookup_lt_Some).
    intros t Hin. simpl in Hin |- *.
    destruct (listed_after_transition _ _ _ _ _ t (cons_nodup w Hcons) Hstep Hin)
      as [[-> Ha]|[[Hne Hin0]|[-> Hin0]]].
    + exists i, c'. split; [by apply list_lookup_insert_eq|done].
    + destruct (Hla t Hin0) as (j & cj & Hj & Htj & Haj).
      exists j, cj. split; [|done].
      rewrite list_lookup_insert_ne; [done|]. intros ->. congruence.
    + rewrite list_insert_id by done. by apply Hla.
  - intros t Hin. by apply Hla.
  - unfold step_world. by destruct (Qlt_le_dec 0 d).
Qed.

Lemma listed_active_run bt calls schedule :
  listed_active (run schedule (boot bt calls)).
Proof.
  pose proof (run_invariant (λ w, conserved w ∧ listed_active w)) as Hinv.
  apply Hinv.
  - intros e w [H1 H2]. split; [by apply conserved_step|by apply listed_active_step].
  - split; [apply conserved_boot|]. intros t Hin. simpl in Hin.
    by apply not_elem_of_nil in Hin.
Qed.

End QueueMoreFacts.

(** X1. With pairwise distinct ids no waiting routine ever fails, and a
    routine inside [otp_queue.get] always finds a code: its next step pops
    the first queued code at once, so the 0.3 s limit never runs out and the
    [queue.Empty] handlers are never entered. *)
Theorem get_never_blocks bt calls schedule i c :
  QueueInv.distinct_ids calls →
  let w := FairQueue.run schedule (FairQueue.boot bt calls) in
  FairQueue.pool w !! i = Some c →
  (∀ e, FairQueue.at_pc c ≠ FairQueue.Failed e) ∧
  (∀ endtime, FairQueue.at_pc c = FairQueue.AtGet endtime →
     ∃ x rest,
       FairQueue.otp_queue (FairQueue.globals w) = x :: rest ∧
       FairQueue.step_call (FairQueue.clock w) (FairQueue.globals w) c
       = (FairQueue.with_queue rest (FairQueue.globals w),
          FairQueue.goto (FairQueue.AtRemove x) c,
          [FairQueue.ObsPopped (FairQueue.thread_id c) x])).
Proof.
  intros Hd w Hc.
  destruct (reachable_invariants bt calls schedule Hd) as [_ Hfair].
  pose proof (QueueInv.fair_calls _ Hfair i c Hc) as Hok.
  fold w in Hok. unfold QueueInv.call_ok in Hok. split.
  - intros e He. by rewrite He in Hok.
  - intros endtime Hp. rewrite Hp in Hok. destruct Hok as [_ Hq].
    destruct (FairQueue.otp_queue (FairQueue.globals w)) as [|x rest] eqn:Hqueue;
      [done|].
    exists x, rest. split; [done|]. by eapply step_call_get.
Qed.

Lemma get_never_blocks_witness :
  ∃ x rest,
    FairQueue.otp_queue
      (FairQueue.globals (FairQueue.run Scenario.both_register
                            (FairQueue.boot ∅ Scenario.two_workers))) = x :: rest ∧
    FairQueue.step_call
      (FairQueue.clock (FairQueue.run Scenario.both_register
                          (FairQueue.boot ∅ Scenario.two_workers)))
      (FairQueue.globals (FairQueue.run Scenario.both_register
                            (FairQueue.boot ∅ Scenario.two_workers)))
      {| FairQueue.shape := FairQueue.Blocking; FairQueue.thread_id := 1;
         FairQueue.timeout := 5; FairQueue.start_time := 0;
         FairQueue.remaining_timeout := 0;
         FairQueue.at_pc := FairQueue.AtGet 1.3 |}
    = (FairQueue.with_queue rest
         (FairQueue.globals (FairQueue.run Scenario.both_register
                               (FairQueue.boot ∅ Scenario.two_workers))),
       FairQueue.goto (FairQueue.AtRemove x)
         {| FairQueue.shape := FairQueue.Blocking; FairQueue.thread_id := 1;
            FairQueue.timeout := 5; FairQueue.start_time := 0;
            FairQueue.remaining_timeout := 0;
            FairQueue.at_pc := FairQueue.AtGet 1.3 |},
       [FairQueue.ObsPopped 1 x]).
Proof.
  refine (proj2 (get_never_blocks ∅ Scenario.two_workers Scenario.both_register 0%nat
                   _ two_workers_distinct _) 1.3%Q _).
  - vm_compute. reflexivity.
  - reflexivity.
Defined.

(** X2. No waiting routine gives up early: whenever a routine has left its
    loop for the clean-up or has returned [None], at least the [timeout] it
    was entered with has passed since it read [start_time]. This holds for
    both variants, any ids and any schedule. *)
Theorem no_early_timeout bt calls schedule i c :
  let w := FairQueue.run schedule (FairQueue.boot bt calls) in
  FairQueue.pool w !! i = Some c →
  FairQueue.at_pc c = FairQueue.AtTimeout ∨ FairQueue.at_pc c = FairQueue.Returned None →
  (FairQueue.timeout c <= FairQueue.clock w - FairQueue.start_time c)%Q ∧
  ∃ c0, calls !! i = Some c0 ∧ FairQueue.timeout c = FairQueue.timeout c0.
Proof.
  intros w Hc Hp. split.
  - pose proof (patient_run bt calls schedule) as Hall. fold w in Hall.
    destruct (proj1 (Forall_lookup _ _) Hall i c Hc) as (_ & _ & H3). by apply H3.
  - pose proof (arguments_run bt calls schedule) as Hargs. fold w in Hargs.
    apply (f_equal (λ l, l !! i)) in Hargs.
    rewrite !list_lookup_fmap, Hc in Hargs. simpl in Hargs.
    destruct (calls !! i) as [c0|]; [|done].
    exists c0. split; [done|]. by inversion Hargs.
Qed.

Lemma no_early_timeout_witness :
  (1 <= FairQueue.clock
          (FairQueue.run Scenario.second_served (FairQueue.boot ∅ Scenario.one_second))
        - 0)%Q ∧
  ∃ c0, Scenario.one_second !! 0%nat = Some c0 ∧ 1%Q = FairQueue.timeout c0.
Proof.
  refine (no_early_timeout ∅ Scenario.one_second Scenario.second_served 0%nat
            {| FairQueue.shape := FairQueue.Blocking; FairQueue.thread_id := 1;
               FairQueue.timeout := 1; FairQueue.start_time := 0;
               FairQueue.remaining_timeout := 0;
               FairQueue.at_pc := FairQueue.Returned None |} _ _).
  - vm_compute. reflexivity.
  - right. reflexivity.
Defined.

(** X3. [otp_waiting_threads] never keeps the id of a finished worker: in
    every reachable world, for any ids, each listed id belongs to a routine
    that has registered and not yet returned; once every routine has
    returned the list is empty. *)
Theorem no_leaked_waiters bt calls schedule :
  let w := FairQueue.run schedule (FairQueue.boot bt calls) in
  QueueMore.listed_active w ∧
  ((∀ c, c ∈ FairQueue.pool w → ∃ r, FairQueue.at_pc c = FairQueue.Returned r) →
   FairQueue.otp_waiting_threads (FairQueue.globals w) = []).
Proof.
  intros w. pose proof (listed_active_run bt calls schedule) as Hla. fold w in Hla.
  split; [done|]. intros Hall.
  destruct (FairQueue.otp_waiting_threads (FairQueue.globals w)) as [|t l] eqn:Hl;
    [done|].
  destruct (Hla t) as (i & c & Hc & _ & Ha); [rewrite Hl; apply list_elem_of_here|].
  destruct (Hall c) as [r Hr]; [by eapply list_elem_of_lookup_2|].
  by rewrite Hr in Ha.
Qed.

Lemma no_leaked_waiters_witness :
  FairQueue.otp_waiting_threads
    (FairQueue.globals (FairQueue.run Scenario.in_turn
                          (FairQueue.boot ∅ Scenario.two_workers))) = [].
Proof.
  apply (proj2 (no_leaked_waiters ∅ Scenario.two_workers Scenario.in_turn)).
  intros c Hc. vm_compute in Hc.
  apply list_elem_of_In in Hc. simpl in Hc.
  destruct Hc as [<-|[<-|[]]]; by eexists.
Defined.

(** ** Registry, legacy slot and endpoints *)

Section ServiceFacts.
Import Registry Legacy Service.
Local Open Scope Q_scope.

Lemma apply_op_well_stamped op st :
  well_stamped st → ∃ st', apply_op op st = Ok st' ∧ well_stamped st'.
Proof.
  intros Hw. destruct op as [c t|t|t]; simpl.
  - eexists; split; [done|]. intros _. by eexists.
  - unfold take. destruct (otp st) as [c|] eqn:Ho.
    + destruct (Hw (ex_intro _ c Ho)) as [ts Hts]. rewrite Hts.
      destruct (Qlt_le_dec (t - ts) 300); simpl;
        (eexists; split; [done|]; by intros [? [=]]).
    + simpl. eexists; split; [done|]. unfold well_stamped. rewrite Ho.
      by intros [? [=]].
  - unfold otp_status. destruct (otp st) as [c|] eqn:Ho.
    + destruct (Hw (ex_intro _ c Ho)) as [ts Hts]. rewrite Hts. simpl.
      by eexists.
    + simpl. by eexists.
Qed.

Lemma apply_ops_well_stamped ops : ∀ st,
  well_stamped st → ∃ st', apply_ops ops st = Ok st' ∧ well_stamped st'.
Proof.
  induction ops as [|op ops IH]; intros st Hw; [by exists st|].
  destruct (apply_op_well_stamped op st Hw) as (st1 & H1 & Hw1).
  destruct (IH st1 Hw1) as (st2 & H2 & Hw2).
  exists st2. split; [|done]. simpl. by rewrite H1.
Qed.

End ServiceFacts.

(** X4. Starting a job on a registry with no record above the counter never
    raises and never overwrites: the id is the counter plus one and was not
    in use, its record holds exactly the creation time, the status
    "starting", the policy number and the action type, every other record
    is as before, and again no record sits above the new counter. *)
Theorem retrieve_policy_begin_fresh (now : Q) (policy_no action_type : string)
    (thread_counter : Z) (browser_threads : gmap Z (gmap string Registry.pyval)) :
  Service.below_counter thread_counter browser_threads →
  ∃ bt',
    Service.retrieve_policy_begin now policy_no action_type thread_counter browser_threads
    = Ok (thread_counter + 1, thread_counter + 1, bt') ∧
    browser_threads !! (thread_counter + 1) = None ∧
    bt' !! (thread_counter + 1)
    = Some (<["action_type" := Registry.PyStr action_type]>
              (<["policy_no" := Registry.PyStr policy_no]>
                 (<["status" := Registry.PyStr "starting"]>
                    (<["status" := Registry.PyStr "initializing"]>
                       (<["created_at" := Registry.PyNum now]> ∅))))) ∧
    (∀ t, t ≠ thread_counter + 1 → bt' !! t = browser_threads !! t) ∧
    Service.below_counter (thread_counter + 1) bt'.
Proof.
  intros Hb. unfold Service.retrieve_policy_begin, Registry.get_next_thread_id.
  set (tid := thread_counter + 1).
  set (info := <["status" := Registry.PyStr "initializing"]>
                 (<["created_at" := Registry.PyNum now]> ∅)).
  rewrite bool_decide_eq_true_2
    by (apply elem_of_dom; rewrite lookup_insert_eq; by eexists).
  unfold dict_getitem. rewrite lookup_insert_eq. simpl.
  eexists. split; [reflexivity|].
  assert (browser_threads !! tid = None) as Hfresh.
  { destruct (browser_threads !! tid) as [r|] eqn:Hr; [|done].
    assert (tid ≤ thread_counter) by (apply Hb; by eexists). unfold tid in *. lia. }
  split; [done|]. split; [by rewrite lookup_insert_eq|]. split.
  - intros t Ht. by rewrite !lookup_insert_ne.
  - intros t [r Hr]. destruct (decide (t = tid)) as [->|Hne]; [done|].
    rewrite !lookup_insert_ne in Hr by done.
    assert (t ≤ thread_counter) by (apply Hb; by eexists). unfold tid. lia.
Qed.

Lemma retrieve_policy_begin_fresh_witness :
  ∃ bt',
    Service.retrieve_policy_begin 10 "P-1" "add driver" 0 ∅ = Ok (0 + 1, 0 + 1, bt') ∧
    (∅ : gmap Z (gmap string Registry.pyval)) !! (0 + 1) = None ∧
    bt' !! (0 + 1)
    = Some (<["action_type" := Registry.PyStr "add driver"]>
              (<["policy_no" := Registry.PyStr "P-1"]>
                 (<["status" := Registry.PyStr "starting"]>
                    (<["status" := Registry.PyStr "initializing"]>
                       (<["created_at" := Registry.PyNum 10]> ∅))))) ∧
    (∀ t, t ≠ 0 + 1 → bt' !! t = (∅ : gmap Z (gmap string Registry.pyval)) !! t) ∧
    Service.below_counter (0 + 1) bt'.
Proof.
  apply (retrieve_policy_begin_fresh 10 "P-1" "add driver" 0 ∅).
  intros t [r Hr]. by rewrite lookup_empty in Hr.
Defined.

(** X5. From the empty slot, whatever sequence of submissions, reads and
    status queries is applied, none of them raises (the subtraction from a
    missing timestamp never happens), and a stored code always has its
    timestamp. *)
Theorem legacy_slot_never_raises (ops : list Service.legacy_op) :
  ∃ st, Service.apply_ops ops Legacy.initial = Ok st ∧
        Service.well_stamped st ∧
        (∀ now, ∃ r, Legacy.take now st = Ok r) ∧
        (∀ now, ∃ r, Legacy.otp_status now st = Ok r).
Proof.
  destruct (apply_ops_well_stamped ops Legacy.initial) as (st & Hst & Hw);
    [by intros [? [=]]|].
  exists st. split; [done|]. split; [done|]. split; intros now.
  - destruct (apply_op_well_stamped (Service.Take now) st Hw) as (st' & H & _).
    simpl in H. destruct (Legacy.take now st) as [r|e]; [by eexists|done].
  - destruct (apply_op_well_stamped (Service.Status now) st Hw) as (st' & H & _).
    simpl in H. destruct (Legacy.otp_status now st) as [r|e]; [by eexists|done].
Qed.

(** X6. A submitted code read within 300 seconds comes back once: the read
    returns it and clears the slot, and any further read, at any time,
    returns nothing. A second submission before the read replaces the
    first, which is lost. *)
Theorem legacy_put_take_round_trip (otp_code : string) (t t' : Q)
    (st : Legacy.otp_storage) :
  (t' - t < 300)%Q →
  let cleared := {| Legacy.otp := None; Legacy.timestamp := Some t |} in
  Legacy.take t' (Legacy.put otp_code t st) = Ok (cleared, Some otp_code) ∧
  (∀ t'', Legacy.take t'' cleared = Ok (cleared, None)) ∧
  (∀ earlier t0,
     Legacy.take t' (Legacy.put otp_code t (Legacy.put earlier t0 st))
     = Ok (cleared, Some otp_code)).
Proof.
  intros Hage cleared. split; [|split].
  - by apply take_fresh.
  - intros t''. by apply take_empty.
  - intros earlier t0. by apply take_fresh.
Qed.

Lemma legacy_put_take_round_trip_witness :
  Legacy.take 100 (Legacy.put "123456" 4 Legacy.initial)
  = Ok ({| Legacy.otp := None; Legacy.timestamp := Some 4%Q |}, Some "123456").
Proof.
  refine (proj1 (legacy_put_take_round_trip "123456" 4 100 Legacy.initial _)).
  reflexivity.
Defined.

(** X7. [GET /otp] never raises, whatever the slot holds. After a code
    submitted at a non-zero time has been read or has expired, it answers
    [has_otp = False] and still reports the age of that code, because a
    read clears the code and keeps the timestamp; on a fresh process it
    reports no age. *)
Theorem otp_info_reports_consumed_age (otp_code : string) (t now later : Q)
    (st : Legacy.otp_storage) :
  ¬ (t == 0)%Q →
  ∃ st' r,
    Legacy.take now (Legacy.put otp_code t st) = Ok (st', r) ∧
    Service.otp_info later st'
    = {| Service.has_otp := false;
         Service.age_seconds := Some (py_int (later - t)) |} ∧
    Service.otp_info later Legacy.initial
    = {| Service.has_otp := false; Service.age_seconds := None |}.
Proof.
  intros Hne.
  assert (Qeq_bool t 0 = false) as Hz.
  { destruct (Qeq_bool t 0) eqn:E; [|done]. by apply Qeq_bool_eq in E. }
  destruct (Qlt_le_dec (now - t) 300) as [Hlt|Hge].
  - eexists _, _. split; [by apply take_fresh|].
    unfold Service.otp_info; simpl. by rewrite Hz.
  - eexists _, _. split; [by eapply take_expired|].
    unfold Service.otp_info; simpl. by rewrite Hz.
Qed.

Lemma otp_info_reports_consumed_age_witness :
  ∃ st' r,
    Legacy.take 10 (Legacy.put "123456" 4 Legacy.initial) = Ok (st', r) ∧
    Service.otp_info 1000 st'
    = {| Service.has_otp := false;
         Service.age_seconds := Some (py_int (1000 - 4)) |} ∧
    Service.otp_info 1000 Legacy.initial
    = {| Service.has_otp := false; Service.age_seconds := None |}.
Proof.
  apply (otp_info_reports_consumed_age "123456" 4 10 1000 Legacy.initial).
  intros H. discriminate H.
Defined.

(** X8. An accepted submission reaches both mechanisms: [str] of the code
    goes to the tail of the queue and into the legacy slot with the current
    time, the waiting list and the registry stay as they are, and the
    request's value is echoed. The same code is then handed out twice: a
    legacy read within 300 seconds returns it, and, the queue having been
    empty, so does the next step of any routine inside [otp_queue.get]. *)
Theorem send_otp_reaches_both (now : Q) (request : gmap string Service.json)
    (s : FairQueue.shared) (st : Legacy.otp_storage) (v : Service.json) :
  request !! "otp" = Some v → Service.truthy v = true →
  let code := Service.py_str v in
  let s' := FairQueue.deliver code s in
  let st' := Legacy.put code now st in
  Service.send_otp now request s st
  = (s', st', Service.Respond {| Service.success := true; Service.otp_echo := v |}) ∧
  FairQueue.otp_queue s' = FairQueue.otp_queue s ++ [code] ∧
  FairQueue.otp_waiting_threads s' = FairQueue.otp_waiting_threads s ∧
  FairQueue.browser_threads s' = FairQueue.browser_threads s ∧
  (∀ later, (later - now < 300)%Q →
     ∃ st'', Legacy.take later st' = Ok (st'', Some code)) ∧
  (FairQueue.otp_queue s = [] →
   ∀ clock c endtime, FairQueue.at_pc c = FairQueue.AtGet endtime →
     FairQueue.step_call clock s' c
     = (FairQueue.with_queue [] s', FairQueue.goto (FairQueue.AtRemove code) c,
        [FairQueue.ObsPopped (FairQueue.thread_id c) code])).
Proof.
  intros Hreq Htruthy code s' st'.
  split; [|split; [done|split; [done|split; [done|split]]]].
  - unfold Service.send_otp, Service.send_otp_try. by rewrite Hreq; simpl; rewrite Htruthy.
  - intros later Hage. eexists. by apply take_fresh.
  - intros Hempty clock c endtime Hp.
    eapply step_call_get; [done|]. unfold s', FairQueue.deliver; simpl.
    by rewrite Hempty.
Qed.

Lemma send_otp_reaches_both_witness :
  Service.send_otp 7 {["otp" := Service.JInt 123456]}
    {| FairQueue.otp_waiting_threads := [1]; FairQueue.otp_queue := [];
       FairQueue.browser_threads := ∅ |} Legacy.initial
  = ({| FairQueue.otp_waiting_threads := [1]; FairQueue.otp_queue := ["123456"];
        FairQueue.browser_threads := ∅ |},
     {| Legacy.otp := Some "123456"; Legacy.timestamp := Some 7%Q |},
     Service.Respond {| Service.success := true;
                        Service.otp_echo := Service.JInt 123456 |}).
Proof.
  refine (proj1 (send_otp_reaches_both 7 {["otp" := Service.JInt 123456]}
                   {| FairQueue.otp_waiting_threads := [1]; FairQueue.otp_queue := [];
                      FairQueue.browser_threads := ∅ |}
                   Legacy.initial (Service.JInt 123456) _ _)).
  - apply lookup_singleton_eq.
  - reflexivity.
Defined.

(** X9. [POST /otp] fails exactly when the body has no "otp" entry or a
    falsy one (null, false, 0, the empty string), and every failure reaches
    the client as status 500 with queue, slot, list and registry untouched:
    the 400 raised for the missing code is caught by the handler's own
    [except Exception] and never leaves it. *)
Theorem send_otp_rejects_with_500 (now : Q) (request : gmap string Service.json)
    (s : FairQueue.shared) (st : Legacy.otp_storage) :
  (∀ s' st' e,
     Service.send_otp now request s st = (s', st', Service.Abort e) →
     e = Service.HTTPException 500 ∧ s' = s ∧ st' = st) ∧
  ((∃ s' st' e, Service.send_otp now request s st = (s', st', Service.Abort e)) ↔
   request !! "otp" = None ∨
   ∃ v, request !! "otp" = Some v ∧ Service.truthy v = false) ∧
  (request !! "otp" = None ∨
   (∃ v, request !! "otp" = Some v ∧ Service.truthy v = false) →
   Service.send_otp now request s st
   = (s, st, Service.Abort (Service.HTTPException 500))).
Proof.
  unfold Service.send_otp, Service.send_otp_try.
  destruct (request !! "otp") as [v|] eqn:Hreq; simpl.
  - destruct (Service.truthy v) eqn:Ht; simpl.
    + split; [by intros s' st' e [=]|]. split; [split|].
      * by intros (s' & st' & e & [=]).
      * intros [[=]|(v' & [= <-] & Hf)]. congruence.
      * intros [[=]|(v' & [= <-] & Hf)]. congruence.
    + split; [by intros s' st' e [= <- <- <-]|]. split; [split|done].
      * intros _. right. by exists v.
      * intros _. by eexists _, _, _.
  - split; [by intros s' st' e [= <- <- <-]|]. split; [split|done].
    + intros _. by left.
    + intros _. by eexists _, _, _.
Qed.

Lemma send_otp_rejects_with_500_witness :
  Service.send_otp 7 {["otp" := Service.JStr ""]}
    {| FairQueue.otp_waiting_threads := [1]; FairQueue.otp_queue := [];
       FairQueue.browser_threads := ∅ |} Legacy.initial
  = ({| FairQueue.otp_waiting_threads := [1]; FairQueue.otp_queue := [];
        FairQueue.browser_threads := ∅ |}, Legacy.initial,
     Service.Abort (Service.HTTPException 500)).
Proof.
  apply (proj2 (proj2 (send_otp_rejects_with_500 7 {["otp" := Service.JStr ""]}
                         {| FairQueue.otp_waiting_threads := [1];
                            FairQueue.otp_queue := [];
                            FairQueue.browser_threads := ∅ |} Legacy.initial))).
  right. exists (Service.JStr ""). split; [apply lookup_singleton_eq|reflexivity].
Defined.

(** X10. Two calls of [get_next_debug_port] return the same port exactly
    when their positions differ by a multiple of 777: the allocator hands a
    port out again after 777 calls and not before. *)
Theorem debug_ports_collide_every_777 (n i j : nat) :
  (i < n)%nat → (j < n)%nat →
  Allocator.ports n !! i = Allocator.ports n !! j ↔
  Z.of_nat i `mod` 777 = Z.of_nat j `mod` 777.
Proof.
  intros Hi Hj. rewrite !ports_lookup by done. split.
  - intros [= H]. lia.
  - by intros ->.
Qed.

Lemma debug_ports_collide_every_777_witness :
  Allocator.ports 778 !! 0%nat = Allocator.ports 778 !! 777%nat.
Proof.
  apply (debug_ports_collide_every_777 778 0 777); [lia|lia|reflexivity].
Defined.

(** ** Text decisions of the automation *)

Section TextFacts.
Import Automation.
Local Open Scope nat_scope.
Implicit Types (s p q n h : string).

Lemma str_app_nil_r s : s +:+ "" = s.
Proof.
  induction s as [|a s IH]; [done|].
  change (String a (s +:+ "") = String a s). by rewrite IH.
Qed.

Lemma str_app_assoc s p q : (s +:+ p) +:+ q = s +:+ (p +:+ q).
Proof.
  induction s as [|a s IH]; [done|].
  change (String a ((s +:+ p) +:+ q) = String a (s +:+ (p +:+ q))). by rewrite IH.
Qed.

Lemma str_length_app s p : String.length (s +:+ p) = String.length s + String.length p.
Proof.
  induction s as [|a s IH]; [done|].
  change (S (String.length (s +:+ p)) = S (String.length s + String.length p)).
  by rewrite IH.
Qed.

Lemma str_length_0 s : String.length s = 0 → s = "".
Proof. by destruct s. Qed.

Lemma prefix_app n q : String.prefix n (n +:+ q) = true.
Proof.
  induction n as [|a n IH]; [by destruct q|].
  change (String.prefix (String a n) (String a (n +:+ q)) = true).
  cbn [String.prefix]. by destruct (Ascii.ascii_dec a a).
Qed.

Lemma prefix_elim n : ∀ h, String.prefix n h = true → ∃ q, h = n +:+ q.
Proof.
  induction n as [|a n IH]; intros h Hp; [by exists h|].
  destruct h as [|b h]; [done|]. cbn [String.prefix] in Hp.
  destruct (Ascii.ascii_dec a b) as [->|]; [|done].
  destruct (IH h Hp) as [q ->]. by exists q.
Qed.

Lemma contains_cons n a h : contains n h = true → contains n (String a h) = true.
Proof. intros H. cbn [contains]. rewrite H. apply orb_true_r. Qed.

Lemma contains_prefix n h : String.prefix n h = true → contains n h = true.
Proof. intros H. destruct h; cbn [contains]; by rewrite H. Qed.

Lemma contains_intro p n q : contains n (p +:+ n +:+ q) = true.
Proof.
  induction p as [|a p IH].
  - change (contains n (n +:+ q) = true). apply contains_prefix, prefix_app.
  - change (contains n (String a (p +:+ n +:+ q)) = true). by apply contains_cons.
Qed.

Lemma contains_elim n : ∀ h, contains n h = true → ∃ p q, h = p +:+ n +:+ q.
Proof.
  induction h as [|a h IH]; intros Hc; cbn [contains] in Hc.
  - rewrite orb_false_r in Hc.
    destruct (prefix_elim _ _ Hc) as [q ->]. by exists "", q.
  - apply orb_true_iff in Hc as [Hp|Hc].
    + destruct (prefix_elim _ _ Hp) as [q Hq]. exists "", q. by rewrite Hq.
    + destruct (IH Hc) as (p & q & ->). by exists (String a p), q.
Qed.

(** A text that contains [n] contains every part of [n]. *)
Lemma contains_part p1 n p2 h :
  contains (p1 +:+ n +:+ p2) h = true → contains n h = true.
Proof.
  intros (p & q & ->)%contains_elim.
  replace (p +:+ (p1 +:+ n +:+ p2) +:+ q) with ((p +:+ p1) +:+ n +:+ (p2 +:+ q))
    by (by rewrite !str_app_assoc).
  apply contains_intro.
Qed.

Lemma contains_length n h : contains n h = true → String.length n ≤ String.length h.
Proof. intros (p & q & ->)%contains_elim. rewrite !str_length_app. lia. Qed.

Lemma contains_same_length n h :
  contains n h = true → String.length n = String.length h → n = h.
Proof.
  intros (p & q & ->)%contains_elim Hlen. rewrite !str_length_app in Hlen.
  assert (p = "") as -> by (apply str_length_0; lia).
  assert (q = "") as -> by (apply str_length_0; lia).
  by rewrite str_app_nil_r.
Qed.

Lemma contains_refl n : contains n n = true.
Proof.
  pose proof (contains_intro "" n "") as H. simpl in H. by rewrite str_app_nil_r in H.
Qed.

Lemma contains_empty h : contains "" h = true.
Proof. by destruct h. Qed.

End TextFacts.

(** X11. A driver gender whose lower-case form contains "female", such as
    the documented value 'female' in any casing, selects the Male radio
    button, because "male" is looked for as a substring. Female is selected
    exactly for texts that do not contain "male" and are not "m". *)
Theorem select_gender_female_selects_male (driver_gender : string) :
  Automation.ascii_text driver_gender = true →
  (Automation.contains "female" (Automation.py_lower driver_gender) = true →
   Automation.select_gender driver_gender = Automation.Male) ∧
  (Automation.select_gender driver_gender = Automation.Female ↔
   Automation.contains "male" (Automation.py_lower driver_gender) = false ∧
   Automation.py_lower driver_gender ≠ "m").
Proof.
  intros _. unfold Automation.select_gender. split.
  - intros Hf. rewrite (contains_part "fe" "male" "" _ Hf). done.
  - destruct (Automation.contains "male" _) eqn:Hm; simpl.
    + split; [done|]. by intros [? _].
    + destruct (String.eqb_spec (Automation.py_lower driver_gender) "m") as [He|Hne].
      * split; [done|]. by intros [_ ?].
      * done.
Qed.

Lemma select_gender_female_selects_male_witness :
  Automation.select_gender "Female" = Automation.Male.
Proof.
  refine (proj1 (select_gender_female_selects_male "Female" _) _); reflexivity.
Defined.

(** X12. The entry clicked in step 8 and the branches taken later agree for
    every action type that is accepted, with one exception. After Add
    Driver or Update Driver the driver date is typed and the driver form is
    filled; after Add a Vehicle the vehicle date is typed and no vehicle is
    selected; after Replace Vehicle the vehicle date is typed and a vehicle
    is selected, unless the action type also mentions "driver", in which
    case Replace Vehicle is clicked and the driver date and driver form
    follow. An action type is refused exactly when it contains neither
    "add" nor "replace" nor both "update" and "driver". *)
Theorem click_action_and_later_steps (action_type d_driver d_vehicle : string) :
  Automation.ascii_text action_type = true →
  let l := Automation.py_lower action_type in
  (∀ a, Automation.click_action action_type = Some a →
     match a with
     | Automation.AddDriver | Automation.UpdateDriver =>
         Automation.date_to_enter action_type d_driver d_vehicle = d_driver ∧
         Automation.step14_form action_type = Automation.DriverForm
     | Automation.AddVehicle =>
         Automation.date_to_enter action_type d_driver d_vehicle = d_vehicle ∧
         Automation.step14_form action_type = Automation.NoSelection
     | Automation.ReplaceVehicle =>
         if Automation.contains "driver" l
         then Automation.date_to_enter action_type d_driver d_vehicle = d_driver ∧
              Automation.step14_form action_type = Automation.DriverForm
         else Automation.date_to_enter action_type d_driver d_vehicle = d_vehicle ∧
              Automation.step14_form action_type = Automation.VehicleSelection
     end) ∧
  (Automation.click_action action_type = None ↔
   Automation.contains "add" l = false ∧ Automation.contains "replace" l = false ∧
   (Automation.contains "update" l && Automation.contains "driver" l = false)).
Proof.
  intros _ l.
  unfold Automation.click_action, Automation.date_to_enter, Automation.step14_form.
  fold l.
  destruct (Automation.contains "add" l), (Automation.contains "driver" l),
    (Automation.contains "update" l), (Automation.contains "replace" l); simpl;
    (split; [intros a [= <-]; done || (intros a; done) | split; [done || tauto | by intros (? & ? & ?)]]).
Qed.

Lemma click_action_and_later_steps_witness :
  Automation.date_to_enter "Replace Vehical" "01/01/2026" "02/02/2026" = "02/02/2026" ∧
  Automation.step14_form "Replace Vehical" = Automation.VehicleSelection.
Proof.
  exact (proj1 (click_action_and_later_steps "Replace Vehical" "01/01/2026" "02/02/2026"
                  eq_refl) Automation.ReplaceVehicle eq_refl).
Defined.

Section VehicleFacts.
Import Automation.
Local Open Scope nat_scope.
Implicit Types (s cur vu vn : string).

Lemma snoc_not_empty cur a : String.eqb (cur +:+ String a "") "" = false.
Proof. apply String.eqb_neq. by destruct cur. Qed.

(** Words are separated: a text of length [n] has at most [(n + 1) / 2]. *)
Lemma split_from_bound s : ∀ cur,
  2 * length (split_from cur s)
  ≤ String.length s + (if String.eqb cur "" then 1 else 2).
Proof.
  induction s as [|a s IH]; intros cur; cbn [split_from String.length].
  - destruct (String.eqb cur ""); simpl; lia.
  - destruct (is_space a).
    + specialize (IH ""). rewrite String.eqb_refl in IH.
      destruct (String.eqb cur ""); simpl; lia.
    + specialize (IH (cur +:+ String a "")). rewrite snoc_not_empty in IH.
      destruct (String.eqb cur ""); lia.
Qed.

Lemma match_score_containing vu vn :
  contains vu vn = true → match_score vu vn = String.length vu.
Proof. intros H. unfold match_score. by rewrite H. Qed.

Lemma match_score_other vu vn :
  vu ≠ "" → contains vu vn = false → match_score vu vn < String.length vu.
Proof.
  intros Hne Hc. unfold match_score. rewrite Hc.
  destruct (contains vn vu) eqn:Hc2.
  - pose proof (contains_length _ _ Hc2) as Hle.
    destruct (decide (String.length vn = String.length vu)) as [Heq|]; [|lia].
    rewrite (contains_same_length _ _ Hc2 Heq), contains_refl in Hc. done.
  - destruct vu as [|a [|b vu]]; [done| |].
    + (* one character: it is the only word, and it does not occur *)
      unfold py_split; cbn [split_from]. destruct (is_space a); simpl; [lia|].
      change ("" +:+ String a "") with (String a "").
      rewrite filter_cons, decide_False by (by rewrite Hc). simpl. lia.
    + pose proof (split_from_bound (String a (String b vu)) "") as Hb.
      rewrite String.eqb_refl in Hb. fold (py_split (String a (String b vu))) in Hb.
      pose proof (length_filter (λ word, contains word vn = true)
                    (py_split (String a (String b vu)))) as Hf.
      cbn [String.length] in *. lia.
Qed.

Lemma match_score_le vu vn : match_score vu vn ≤ String.length vu.
Proof.
  destruct (contains vu vn) eqn:Hc; [by rewrite match_score_containing|].
  destruct (decide (vu = "")) as [->|Hne]; [by rewrite contains_empty in Hc|].
  pose proof (match_score_other vu vn Hne Hc). lia.
Qed.

(** Once the score is the length of the name no later option replaces the
    match. *)
Lemma scan_from_full vu names : ∀ idx best,
  scan_from vu idx names best (String.length vu) = (best, String.length vu).
Proof.
  induction names as [|[vn|] names IH]; intros idx best; cbn [scan_from]; [done| |done].
  pose proof (match_score_le vu vn) as Hle.
  destruct (Nat.ltb_spec (String.length vu) (match_score vu vn)); [lia|done].
Qed.

Lemma scan_from_first vu names : ∀ idx best score k vn,
  vu ≠ "" → score < String.length vu →
  names !! k = Some (Some vn) → contains vu vn = true →
  (∀ j vn', j < k → names !! j = Some (Some vn') → contains vu vn' = false) →
  scan_from vu idx names best score = (Some (idx + k, vn), String.length vu).
Proof.
  induction names as [|[v0|] names IH]; intros idx best score k vn Hne Hs Hk Hc Hbefore;
    [done| |]; cbn [scan_from].
  - destruct k as [|k].
    + simpl in Hk. simplify_eq. rewrite (match_score_containing _ _ Hc).
      rewrite (proj2 (Nat.ltb_lt _ _) Hs), Nat.add_0_r. apply scan_from_full.
    + simpl in Hk.
      assert (contains vu v0 = false) as Hc0 by (apply (Hbefore 0 v0); [lia|done]).
      pose proof (match_score_other vu v0 Hne Hc0) as Hlt.
      assert (∀ j vn', j < k → names !! j = Some (Some vn') → contains vu vn' = false)
        as Hbefore' by (intros j vn' Hj Hl; apply (Hbefore (S j) vn'); [lia|done]).
      replace (idx + S k) with (S idx + k) by lia.
      destruct (score <? match_score vu v0); by apply IH.
  - destruct k as [|k]; [done|]. simpl in Hk.
    replace (idx + S k) with (S idx + k) by lia. apply IH; try done.
    intros j vn' Hj Hl. apply (Hbefore (S j) vn'); [lia|done].
Qed.

Lemma scan_from_empty names : ∀ idx, scan_from "" idx names None 0 = (None, 0).
Proof. intros idx. apply (scan_from_full "" names idx None). Qed.

End VehicleFacts.

(** X13. Vehicle matching picks the first option whose text contains the
    requested name: an option that contains the whole name scores the
    name's length, and every other option scores less, whether it matches
    by being contained in the name or by shared words. With an empty
    requested name every option scores zero and the selection fails with
    "No matching vehicle found", whatever the options are. *)
Theorem select_vehicle_first_containing (vehicle_name_upper : string)
    (names : list (option string)) :
  Automation.ascii_text vehicle_name_upper = true →
  (∀ vn, Some vn ∈ names → Automation.ascii_text vn = true) →
  (vehicle_name_upper = "" → Automation.select_vehicle vehicle_name_upper names = None) ∧
  (∀ k vn,
     vehicle_name_upper ≠ "" →
     names !! k = Some (Some vn) →
     Automation.contains vehicle_name_upper vn = true →
     (∀ j vn', (j < k)%nat → names !! j = Some (Some vn') →
        Automation.contains vehicle_name_upper vn' = false) →
     Automation.select_vehicle vehicle_name_upper names = Some (k, vn) ∧
     ∀ vn', Some vn' ∈ names →
       Automation.contains vehicle_name_upper vn' = false →
       (Automation.match_score vehicle_name_upper vn'
        < Automation.match_score vehicle_name_upper vn)%nat).
Proof.
  intros _ _. split.
  - intros ->. unfold Automation.select_vehicle. by rewrite scan_from_empty.
  - intros k vn Hne Hk Hc Hbefore. split.
    + unfold Automation.select_vehicle.
      rewrite (scan_from_first vehicle_name_upper names 0 None 0 k vn); try done.
      * destruct (Nat.eqb_spec (String.length vehicle_name_upper) 0) as [H0|]; [|done].
        by apply str_length_0 in H0.
      * destruct vehicle_name_upper; [done|]. simpl. lia.
    + intros vn' _ Hc'. rewrite (match_score_containing _ _ Hc).
      by apply match_score_other.
Qed.

Lemma select_vehicle_first_containing_witness :
  Automation.select_vehicle "CHEVROLET SUBURBAN"
    [Some "2019 TOYOTA CAMRY"; None; Some "2021 CHEVROLET SUBURBAN LT";
     Some "2015 CHEVROLET SUBURBAN"]
  = Some (2%nat, "2021 CHEVROLET SUBURBAN LT").
Proof.
  refine (proj1 (proj2 (select_vehicle_first_containing "CHEVROLET SUBURBAN"
            [Some "2019 TOYOTA CAMRY"; None; Some "2021 CHEVROLET SUBURBAN LT";
             Some "2015 CHEVROLET SUBURBAN"] eq_refl _)
            2%nat "2021 CHEVROLET SUBURBAN LT" _ eq_refl eq_refl _)).
  - intros vn Hin. apply list_elem_of_In in Hin. simpl in Hin.
    destruct Hin as [[= <-]|[[=]|[[= <-]|[[= <-]|[]]]]]; reflexivity.
  - discriminate.
  - intros j vn' Hj Hl. destruct j as [|[|j]]; simpl in Hl; [|done|lia].
    by simplify_eq.
Defined.
